(** * dirTree: a directory tree printer (src/main.go)

    A shallow embedding of [readDir], [printDir], [dirTree] and of the
    [String] methods of the two node types, together with the part of the
    Go standard library they call: [bytes.Buffer], [strconv.FormatInt],
    [sort.Slice], the [os] directory calls, [io.Writer] and [append] on
    slices. *)

From Stdlib Require Import ssreflect ZArith Lia Ascii.
From stdpp Require Import base list strings sorting.

Local Open Scope Z_scope.

#[local] Set Warnings "-rewrite-rw".

(** ** Errors and abnormal termination *)

(** Go [error] values.  The three sources that occur in the program are kept
    apart, as their dynamic types are in Go: the [os] package reports
    [*os.PathError]s, the writer reports whatever it likes, and [errors.New]
    allocates a value that is equal to no other error. *)
Inductive error : Type :=
| OSError (msg : string)
| WriterError (msg : string)
| ErrorsNew (msg : string).

(** A Go call either returns or panics. *)
Inductive Outcome (A : Type) : Type :=
| Return (a : A)
| Panic (msg : string).
Arguments Return {A} a.
Arguments Panic {A} msg.

Definition nil_dereference : string :=
  "invalid memory address or nil pointer dereference".

(** ** Nodes of the tree (main.go, lines 14-29) *)

(** [Node] is an interface implemented by the structs [DirInfo] and
    [FileInfo]; the two dynamic types are the two constructors. *)
#[warnings="-register-all"]
Inductive Node : Type :=
| DirInfo (name : string) (children : list Node)
| FileInfo (name : string) (size : Z).

(** ** bytes.Buffer *)

(** [WriteString] appends to the buffer and returns the number of bytes
    written; package [bytes] documents that its error result is always
    nil. *)
Definition Buffer : Type := string.

Definition Buffer_WriteString (buf : Buffer) (s : string)
  : Buffer * (nat * option error) :=
  (buf +:+ s, (String.length s, None)).

Definition Buffer_String (buf : Buffer) : string := buf.

(** ** concatStrings (main.go, lines 32-42) *)

Fixpoint concatStrings_range (buf : Buffer) (err : option error)
    (strings : list string) : string * option error :=
  match strings with
  | [] => (Buffer_String buf, err)
  | item :: rest =>
      let '(buf', (_, err')) := Buffer_WriteString buf item in
      match err' with
      | Some e => ("", Some e)
      | None => concatStrings_range buf' err' rest
      end
  end.

Definition concatStrings (strings : list string) : string * option error :=
  concatStrings_range "" None strings.

(** ** strconv.FormatInt *)

Definition digits : string := "0123456789abcdefghijklmnopqrstuvwxyz".

Definition digit (d : Z) : ascii :=
  default "0"%char (String.get (Z.to_nat d) digits).

(** The digit loop of [strconv.formatBits]: digits are produced from the
    least significant one and stored in front of those already there.  The
    loop of the library runs while [u >= base]; [fuel] bounds it here, and
    [bit_length u] iterations are always enough since every iteration
    divides [u] by at least two. *)
Fixpoint formatBits (fuel : nat) (u base : Z) (acc : string) : string :=
  match fuel with
  | O => acc
  | S fuel' =>
      if u <? base then String (digit u) acc
      else formatBits fuel' (u / base) base (String (digit (u mod base)) acc)
  end.

Definition bit_length (u : Z) : nat := S (Z.to_nat (Z.log2 u)).

Definition FormatInt (i base : Z) : string :=
  if i <? 0 then String "-"%char (formatBits (bit_length (- i)) (- i) base "")
  else formatBits (bit_length i) i base "".

(** ** The String methods (main.go, lines 44-64) *)

Definition FileInfo_String (name : string) (size : Z) : string :=
  if size =? 0 then
    let '(result, err) := concatStrings [name; " (empty)"] in
    match err with
    | Some _ => ""
    | None => result
    end
  else
    let '(result, err) :=
      concatStrings [name; " ("; FormatInt size 10; "b)"] in
    match err with
    | Some _ => ""
    | None => result
    end.

Definition DirInfo_String (name : string) : string := name.

(** Dynamic dispatch of [String] through the [Node] interface, as the verb
    [%s] of [fmt.Fprintf] does for a [fmt.Stringer]. *)
Definition Node_String (node : Node) : string :=
  match node with
  | DirInfo name _ => DirInfo_String name
  | FileInfo name size => FileInfo_String name size
  end.

(** ** sort.Slice *)

(** [sort.Slice] sorts in place with the caller's [less]; it is not
    guaranteed to be stable, and for short slices it is the insertion sort
    below.  The names in a directory listing are pairwise distinct, and on
    such input every sorting algorithm returns the same sequence
    ([sorted_listing_unique]), so the insertion sort stands for it. *)
Section Sort.
Context {A : Type} (less : A -> A -> bool).

Fixpoint sort_insert (x : A) (l : list A) : list A :=
  match l with
  | [] => [x]
  | y :: l' => if less y x then y :: sort_insert x l' else x :: y :: l'
  end.

Fixpoint sort_Slice (l : list A) : list A :=
  match l with
  | [] => []
  | x :: l' => sort_insert x (sort_Slice l')
  end.
End Sort.

(** A comparison by a key that is a string, and the order it sorts into. *)
Definition less_key {A} (key : A -> string) (a b : A) : bool :=
  String.ltb (key a) (key b).
Definition le_key {A} (key : A -> string) (a b : A) : Prop :=
  String.le (key a) (key b).

(** ** The filesystem as package os shows it *)

(** [FileStat] is an [os.FileInfo] returned by [Readdir]: the methods
    [Name], [Size] and [IsDir], and [at_path], what the filesystem holds at
    [filepath.Join(path, Name)], the path [readDir] opens for a directory
    entry.  [Dir] is what [os.Open] does on a path: it fails, or it yields a
    handle whose [Readdir(0)] returns the entries read and possibly an error
    (on an error the entries read until that point are returned with it),
    and whose [Close] possibly returns an error.  Errors are given by their
    message; [readDir] receives them as [OSError]s. *)
#[warnings="-register-all"]
Inductive FileStat : Type :=
| MkStat (Name : string) (Size : Z) (IsDir : bool) (at_path : Dir)
with Dir : Type :=
| OpenError (e : string)
| OpenOk (files : list FileStat) (readErr closeErr : option string).

Definition Name (info : FileStat) : string :=
  match info with MkStat n _ _ _ => n end.
Definition Size (info : FileStat) : Z :=
  match info with MkStat _ s _ _ => s end.
Definition IsDir (info : FileStat) : bool :=
  match info with MkStat _ _ d _ => d end.
Definition at_path (info : FileStat) : Dir :=
  match info with MkStat _ _ _ t => t end.

(** The calls made on the filesystem, in the order they are made. *)
Inductive Event : Type :=
| EvOpen
| EvOpenFailed
| EvReaddir
| EvClose.

(** A computation that makes filesystem calls and returns or panics. *)
Definition IO (A : Type) : Type := list Event * Outcome A.

Definition panic {A} (msg : string) : IO A := ([], Panic msg).
Definition emit (e : Event) : IO unit := ([e], Return tt).

#[global] Instance IO_ret : MRet IO := fun A a => ([], Return a).

#[global] Instance IO_bind : MBind IO := fun A B k m =>
  match m with
  | (t, Return a) => let '(t', r) := k a in (t ++ t', r)
  | (t, Panic msg) => (t, Panic msg)
  end.

(** [defer]: the deferred call runs when the body returns, on the results
    that the return statement has set, which it may replace; and it runs
    while the body panics, on the values [named] that the named results have
    at that point, after which the panic goes on. *)
Definition defer {A} (named : A) (body : IO A) (deferred : A -> IO A) : IO A :=
  match body with
  | (t, Return a) => let '(t', r) := deferred a in (t ++ t', r)
  | (t, Panic msg) =>
      match deferred named with
      | (t', Return _) => (t ++ t', Panic msg)
      | (t', Panic msg') => (t ++ t', Panic msg')
      end
  end.

(** ** readDir (main.go, lines 67-101) *)

(** The comparison handed to [sort.Slice]: [<] on Go strings compares
    them byte by byte. *)
Definition less_Name (a b : FileStat) : bool := String.ltb (Name a) (Name b).

(** A [*[]Node] is [None] when nil and otherwise holds the slice it points
    to.  The result of [readDir]: the pointer and the error. *)
Definition Nodes_ptr : Type := option (list Node).
Definition readDir_result : Type := (Nodes_ptr * option error)%type.

(** The body of the [for] loop over the sorted listing.  Each entry comes
    with [sub], the call [readDir(filepath.Join(path, info.Name()),
    &[]Node{}, withFiles)], which the loop runs when the entry is a
    directory. *)
Fixpoint readDir_range (files : list (FileStat * IO readDir_result))
    (nodes : Nodes_ptr) (withFiles : bool) : IO Nodes_ptr :=
  match files with
  | [] => mret nodes
  | (info, sub) :: rest =>
      if negb (IsDir info || withFiles) then
        readDir_range rest nodes withFiles
      else
        newNode ←
          (if IsDir info then
             '(children, _) ← sub;
             match children with
             | None => panic nil_dereference
             | Some c => mret (DirInfo (Name info) c)
             end
           else mret (FileInfo (Name info) (Size info)));
        match nodes with
        | None => panic nil_dereference
        | Some l => readDir_range rest (Some (l ++ [newNode])) withFiles
        end
  end.

(** [path] is given by the directory that the filesystem holds there.  The
    recursive call for an entry is attached to the entry before the listing
    is sorted, which keeps the recursion structural; it runs inside the
    loop, in sorted order ([readDir_unfold]). *)
Fixpoint readDir (path : Dir) (nodes : Nodes_ptr) (withFiles : bool)
    : IO readDir_result :=
  match path with
  | OpenError e =>
      _ ← emit EvOpenFailed;
      mret (None, Some (OSError e))
  | OpenOk files readErr closeErr =>
      _ ← emit EvOpen;
      _ ← emit EvReaddir;
      let err := OSError <$> readErr in
      defer (None, err)
        (let files :=
           sort_Slice (fun a b => less_Name (fst a) (fst b))
             ((fun info => (info, readDir (at_path info) (Some []) withFiles))
                <$> files) in
         nodes ← readDir_range files nodes withFiles;
         mret (nodes, err))
        (fun '(result, err) =>
           _ ← emit EvClose;
           let cErr := OSError <$> closeErr in
           mret (result, if err is None then cErr else err))
  end.

(** The loop of [readDir] as it is written, over the entries themselves;
    [readDir_unfold] shows that [readDir] runs this loop on the sorted
    listing. *)
Fixpoint readDir_loop (files : list FileStat) (nodes : Nodes_ptr)
    (withFiles : bool) : IO Nodes_ptr :=
  match files with
  | [] => mret nodes
  | info :: rest =>
      if negb (IsDir info || withFiles) then
        readDir_loop rest nodes withFiles
      else
        newNode ←
          (if IsDir info then
             '(children, _) ← readDir (at_path info) (Some []) withFiles;
             match children with
             | None => panic nil_dereference
             | Some c => mret (DirInfo (Name info) c)
             end
           else mret (FileInfo (Name info) (Size info)));
        match nodes with
        | None => panic nil_dereference
        | Some l => readDir_loop rest (Some (l ++ [newNode])) withFiles
        end
  end.

(** ** io.Writer and fmt.Fprintf *)

(** An [io.Writer] is a state [W] with its [Write] method, which returns the
    new state and, when it fails, the message of its error. *)
Class Writer (W : Type) := Write : W -> string -> W * option string.

(** [bytes.Buffer] as a writer; it never fails. *)
#[global] Instance Buffer_Writer : Writer Buffer :=
  fun buf p => (buf +:+ p, None).

(** A writer that accepts a number of bytes and then fails, such as a file
    on a full disk. *)
Record Limited : Type := { written : string; room : nat }.

#[global] Instance Limited_Writer : Writer Limited :=
  fun w p =>
    if bool_decide (String.length p <= room w)%nat then
      ({| written := written w +:+ p; room := room w - String.length p |}, None)
    else (w, Some "no space left on device").

(** [fmt.Fprintf] formats and then makes one call of [Write] with the
    result.  The two formats of the program are ["%s"] and ["%s%s\n"]. *)
Definition newline : string := String "010"%char "".
Definition tab : string := String "009"%char "".

Definition Fprintf {W} `{Writer W} (out : W) (formatted : string)
    : W * option error :=
  let '(out', e) := Write out formatted in (out', WriterError <$> e).

(** ** Slices of strings *)

(** The backing arrays live in a heap, addressed by position; a slice is a
    pointer to an array, a length and a capacity (the slices of the program
    all start at the first element of their array). *)
Definition Heap : Type := list (list string).

Record Slice : Type := { ptr : nat; len : nat; cap : nat }.

(** The elements of a slice, as [range] and a variadic call read them. *)
Definition elems (h : Heap) (s : Slice) : list string :=
  take (len s) (default [] (h !! ptr s)).

(** The composite literal [[]string{}]. *)
Definition empty_slice (h : Heap) : Heap * Slice :=
  (h ++ [[]], {| ptr := length h; len := 0; cap := 0 |}).

(** What [printDir] leaves: the heap, the writer and the error it returns. *)
Definition printDir_result (W : Type) : Type := (Heap * W * option error)%type.

Section Render.
(** The capacity that the runtime chooses when [append] has to grow a
    slice, from the old capacity and the length that is needed.  Nothing is
    assumed of it. *)
Variable growcap : nat -> nat -> nat.

Context {W : Type} `{Writer W}.

(** [append(s, x)]: when the capacity allows it the element is stored in
    place, in the array that [s] shares with every slice made from it;
    otherwise the elements are copied to a new array. *)
Definition append (h : Heap) (s : Slice) (x : string) : Heap * Slice :=
  if bool_decide (len s < cap s)%nat then
    (alter (fun a => <[len s := x]> a) (ptr s) h,
     {| ptr := ptr s; len := S (len s); cap := cap s |})
  else
    let newcap := growcap (cap s) (S (len s)) in
    (h ++ [elems h s ++ x :: replicate (newcap - S (len s)) ""],
     {| ptr := length h; len := S (len s); cap := newcap |}).

(** ** printDir (main.go, lines 104-144) *)

Section Level.
(** [descend node] is [printDir] on the children of the directory
    [node]. *)
Variable descend : Node -> Heap -> W -> Slice -> printDir_result W.

Fixpoint printDir_level (h : Heap) (out : W) (nodes : list Node)
    (prefixes : Slice) : printDir_result W :=
  match nodes with
  | [] => (h, out, None)
  | node :: rest =>
      let '(totalPrefixes, err) := concatStrings (elems h prefixes) in
      match err with
      | Some e => (h, out, Some e)
      | None =>
      let '(out, err) := Fprintf out totalPrefixes in
      match err with
      | Some e => (h, out, Some e)
      | None =>
      if bool_decide (length nodes = 1%nat) then
        let '(out, err) :=
          Fprintf out ("└───" +:+ Node_String node +:+ newline) in
        match err with
        | Some e => (h, out, Some e)
        | None =>
            match node with
            | DirInfo _ _ =>
                let '(h, extended) := append h prefixes tab in
                descend node h out extended
            | FileInfo _ _ => (h, out, None)
            end
        end
      else
        let '(out, err) :=
          Fprintf out ("├───" +:+ Node_String node +:+ newline) in
        match err with
        | Some e => (h, out, Some e)
        | None =>
            let '(h, out, err) :=
              match node with
              | DirInfo _ _ =>
                  let '(h, extended) :=
                    append h prefixes ("│" +:+ tab) in
                  descend node h out extended
              | FileInfo _ _ => (h, out, None)
              end in
            match err with
            | Some e => (h, out, Some e)
            | None => printDir_level h out rest prefixes
            end
        end
      end
      end
  end.
End Level.

Fixpoint printDir_children (node : Node) (h : Heap) (out : W)
    (prefixes : Slice) : printDir_result W :=
  match node with
  | DirInfo _ children => printDir_level printDir_children h out children prefixes
  | FileInfo _ _ => (h, out, None)
  end.

Definition printDir (h : Heap) (out : W) (nodes : list Node)
    (prefixes : Slice) : printDir_result W :=
  printDir_level printDir_children h out nodes prefixes.

(** ** dirTree (main.go, lines 146-156) *)

Definition dirTree (h : Heap) (out : W) (path : Dir) (isPrintFiles : bool)
    : IO (printDir_result W) :=
  '(nodes, err) ← readDir path (Some []) isPrintFiles;
  match err with
  | Some e => mret (h, out, Some e)
  | None =>
      match nodes with
      | None => mret (h, out, Some (ErrorsNew "no nodes for you"))
      | Some nodes =>
          let '(h, prefixes) := empty_slice h in
          mret (printDir h out nodes prefixes)
      end
  end.

(** ** The calls of Write that a rendering makes *)

(** The writes [ws] made one after the other, up to the first that
    fails. *)
Fixpoint write_all (out : W) (ws : list string) : W * option error :=
  match ws with
  | [] => (out, None)
  | w :: ws' =>
      let '(out, err) := Fprintf out w in
      match err with
      | Some e => (out, Some e)
      | None => write_all out ws'
      end
  end.

Definition with_heap (h : Heap) (r : W * option error) : printDir_result W :=
  (h, r.1, r.2).
End Render.

(** ** Example trees *)

(** What a path that is a regular file does when it is opened and listed;
    [readDir] never opens one. *)
Definition regular_file : Dir :=
  OpenOk [] (Some "not a directory") None.

(** The example of the specification: a root that holds the directory
    [docs] with the file [readme.txt] of 120 bytes, and the empty file
    [main.go]; the listing comes in the order [main.go], [docs]. *)
Definition fs_example : Dir :=
  OpenOk [MkStat "main.go" 0 false regular_file;
          MkStat "docs" 4096 true
            (OpenOk [MkStat "readme.txt" 120 false regular_file] None None)]
         None None.

(** A growth policy for [append]: the capacity doubles. *)
Definition double_cap (old needed : nat) : nat := Nat.max needed (2 * old).

(** ** Reading a decimal numeral *)

Definition is_digit (c : ascii) : bool :=
  (48 <=? Z.of_N (N_of_ascii c)) && (Z.of_N (N_of_ascii c) <=? 57).

Fixpoint all_digits (s : string) : bool :=
  match s with
  | EmptyString => true
  | String c s' => is_digit c && all_digits s'
  end.

Definition leading_zero (s : string) : bool :=
  match s with
  | String "0"%char _ => true
  | _ => false
  end.

Fixpoint decimal_from (acc : Z) (s : string) : Z :=
  match s with
  | EmptyString => acc
  | String c s' => decimal_from (acc * 10 + (Z.of_N (N_of_ascii c) - 48)) s'
  end.

Definition decimal_value (s : string) : Z := decimal_from 0 s.

(** The concatenation of a list of strings. *)
Definition join (l : list string) : string := foldr String.app "" l.

(** ** Handles *)

(** The number of directory handles that are open after the calls [t],
    when [k] were open before; [None] when a handle is closed that was not
    open. *)
Fixpoint open_handles (k : nat) (t : list Event) : option nat :=
  match t with
  | [] => Some k
  | EvOpen :: t' => open_handles (S k) t'
  | EvClose :: t' =>
      match k with
      | O => None
      | S k' => open_handles k' t'
      end
  | _ :: t' => open_handles k t'
  end.

(** The error a scan reports when its listing returned [readErr] and its
    close returned [closeErr]: the first of the two. *)
Definition first_error (readErr closeErr : option string) : option error :=
  match readErr with
  | Some e => Some (OSError e)
  | None => OSError <$> closeErr
  end.

(** ** What the builder makes of an entry *)

Definition kept (withFiles : bool) (info : FileStat) : bool :=
  IsDir info || withFiles.

(** [node_of withFiles info node]: [node] is the node built for the entry
    [info]: a file node with its name and size, or a directory node with its
    name and the children that the scan of the subdirectory returned. *)
Definition node_of (withFiles : bool) (info : FileStat) (node : Node) : Prop :=
  match node with
  | DirInfo name children =>
      IsDir info = true /\ name = Name info /\
      exists t err,
        readDir (at_path info) (Some []) withFiles
        = (t, Return (Some children, err))
  | FileInfo name size =>
      IsDir info = false /\ name = Name info /\ size = Size info
  end.

Definition node_name (node : Node) : string :=
  match node with
  | DirInfo name _ => name
  | FileInfo name _ => name
  end.

Definition is_directory (node : Node) : bool :=
  match node with
  | DirInfo _ _ => true
  | FileInfo _ _ => false
  end.

(** ** The children of a directory, in order *)

(** [listed withFiles d nodes]: [nodes] are the nodes for the entries of the
    listing of [d] that are kept (the directories, and the other entries
    when files are included), one node for each entry, in ascending order of
    the names as byte strings, whatever the kinds; a file node has the name
    and the size of its entry, a directory node has the name of its entry,
    and its children are [listed] in turn for the directory of the entry.
    So the order is that of the names in every directory of the tree. *)
Inductive listed (withFiles : bool) : Dir -> list Node -> Prop :=
| listed_OpenOk files readErr closeErr entries nodes :
    entries ≡ₚ filter (fun info => kept withFiles info) files ->
    Sorted String.le (node_name <$> nodes) ->
    Forall2 (listed_entry withFiles) entries nodes ->
    listed withFiles (OpenOk files readErr closeErr) nodes
with listed_entry (withFiles : bool) : FileStat -> Node -> Prop :=
| listed_FileInfo info :
    IsDir info = false ->
    listed_entry withFiles info (FileInfo (Name info) (Size info))
| listed_DirInfo info children :
    IsDir info = true ->
    listed withFiles (at_path info) children ->
    listed_entry withFiles info (DirInfo (Name info) children).

(** A root with a subdirectory that cannot be opened and one that can. *)
Definition fs_denied : Dir :=
  OpenOk [MkStat "private" 4096 true (OpenError "permission denied");
          MkStat "public" 4096 true (OpenOk [] None None)]
         None None.

(** A root with a subdirectory whose listing fails after one entry. *)
Definition fs_partial : Dir :=
  OpenOk [MkStat "broken" 4096 true
            (OpenOk [MkStat "a.txt" 7 false regular_file]
               (Some "input/output error") None);
          MkStat "public" 4096 true (OpenOk [] None None)]
         None None.

(** ** The tree as it is to be drawn *)

Definition connector (last : bool) : string :=
  if last then "└───" else "├───".

Definition fragment (last : bool) : string :=
  if last then tab else "│" +:+ tab.

(** For a sequence of [n] siblings, whether each is the last one. *)
Definition last_flags (n : nat) : list bool :=
  replicate (n - 1) false ++ [true].

(** The writes for a node and for everything below it: the prefix, then the
    line of the node, then the children of a directory with one more
    fragment in their prefix. *)
Fixpoint node_writes (ps : list string) (node : Node) (last : bool)
    : list string :=
  join ps :: (connector last +:+ Node_String node +:+ newline) ::
  match node with
  | DirInfo _ children =>
      concat (zip_with (node_writes (ps ++ [fragment last])) children
                (last_flags (length children)))
  | FileInfo _ _ => []
  end.

Definition render (ps : list string) (nodes : list Node) : list string :=
  concat (zip_with (node_writes ps) nodes (last_flags (length nodes))).

Definition children_of (node : Node) : list Node :=
  match node with
  | DirInfo _ children => children
  | FileInfo _ _ => []
  end.

(** ** Slices that are in order *)

(** The array of the slice is in the heap and holds its length and its
    capacity. *)
Definition valid_slice (h : Heap) (s : Slice) : Prop :=
  exists a, h !! ptr s = Some a /\ (len s <= length a)%nat /\
            (cap s <= length a)%nat.

(** What a call that was given the slice [s] may have done to the heap:
    every array is still there with its length, and its elements are the
    same, except those of the array of [s] from position [len s] on. *)
Definition frame (s : Slice) (h h' : Heap) : Prop :=
  forall p a, h !! p = Some a ->
    exists a', h' !! p = Some a' /\ length a' = length a /\
      forall j, p <> ptr s \/ (j < len s)%nat -> a' !! j = a !! j.

(** What [printDir_level] needs of the call that descends into a directory:
    it makes the writes of [render] for the children, and it keeps to its
    slice. *)
Definition descend_ok {W} `{Writer W}
    (descend : Node -> Heap -> W -> Slice -> printDir_result W)
    (node : Node) : Prop :=
  forall h out s, valid_slice h s ->
    exists h',
      descend node h out s
      = with_heap h' (write_all out (render (elems h s) (children_of node))) /\
      frame s h h'.

(** ** What a run shows *)

(** The calls on the filesystem, and the writer and the error when the run
    returns; the heap is left out. *)
Definition observable {W} (r : IO (printDir_result W)) : IO (W * option error) :=
  (r.1,
   match r.2 with
   | Return (_, out, err) => Return (out, err)
   | Panic msg => Panic msg
   end).

(** What [printDir] prints into an empty buffer when the elements of its
    slice of prefixes are [ps]. *)
Definition printed (growcap : nat -> nat -> nat) (ps : list string)
    (nodes : list Node) : string :=
  (printDir growcap [ps] ("" : Buffer) nodes
     {| ptr := 0; len := length ps; cap := length ps |}).1.2.

(** ** The same directories, listed in another order *)

Inductive same_dir : Dir -> Dir -> Prop :=
| same_OpenError e : same_dir (OpenError e) (OpenError e)
| same_OpenOk files1 files2 files2' readErr closeErr :
    Forall2 same_stat files1 files2' ->
    files2' ≡ₚ files2 ->
    same_dir (OpenOk files1 readErr closeErr) (OpenOk files2 readErr closeErr)
with same_stat : FileStat -> FileStat -> Prop :=
| same_MkStat n sz d t1 t2 :
    same_dir t1 t2 -> same_stat (MkStat n sz d t1) (MkStat n sz d t2).

(** The names in every listing are pairwise distinct. *)
Fixpoint unique_names (d : Dir) : Prop :=
  match d with
  | OpenError _ => True
  | OpenOk files _ _ =>
      NoDup (Name <$> files) /\
      foldr (fun info P => unique_names (at_path info) /\ P) True files
  end.

(** What the loop of [readDir] uses of an entry. *)
Definition view (withFiles : bool) (info : FileStat)
    : string * Z * bool * IO readDir_result :=
  (Name info, Size info, IsDir info,
   readDir (at_path info) (Some []) withFiles).

Definition view_name (v : string * Z * bool * IO readDir_result) : string :=
  v.1.1.1.

(** The example of the specification, listed in the other order. *)
Definition fs_example_reordered : Dir :=
  OpenOk [MkStat "docs" 4096 true
            (OpenOk [MkStat "readme.txt" 120 false regular_file] None None);
          MkStat "main.go" 0 false regular_file]
         None None.

(** A root whose listing fails after it returned a subdirectory that cannot
    be opened. *)
Definition fs_root_partial : Dir :=
  OpenOk [MkStat "private" 4096 true (OpenError "permission denied")]
         (Some "input/output error") None.

Definition example_nodes : list Node :=
  [DirInfo "docs" [FileInfo "readme.txt" 120]; FileInfo "main.go" 0].

(** A root whose subdirectory [docs] is listed out of order, with a
    directory between two files. *)
Definition fs_nested : Dir :=
  OpenOk [MkStat "main.go" 0 false regular_file;
          MkStat "docs" 4096 true
            (OpenOk [MkStat "readme.txt" 120 false regular_file;
                     MkStat "api" 4096 true (OpenOk [] None None);
                     MkStat "Makefile" 7 false regular_file]
               None None)]
         None None.

Definition nested_nodes : list Node :=
  [DirInfo "docs"
     [FileInfo "Makefile" 7; DirInfo "api" []; FileInfo "readme.txt" 120];
   FileInfo "main.go" 0].

(** A tree deep enough for [append] to find room in an array that a slice
    made earlier still uses. *)
Definition deep_nodes : list Node :=
  [DirInfo "a"
     [DirInfo "b"
        [DirInfo "c1"
           [DirInfo "d1" [FileInfo "f" 1]; DirInfo "d2" [FileInfo "g" 2]];
         DirInfo "c2" []]]].

(** ** main (main.go, lines 158-169) *)

(** The [Error] method of an error: its message. *)
Definition error_Error (e : error) : string :=
  match e with
  | OSError msg => msg
  | WriterError msg => msg
  | ErrorsNew msg => msg
  end.

Definition usage : string := "usage go run main.go . [-f]".

Definition index_out_of_range : string := "index out of range".

(** What a run of the program leaves: the calls on the filesystem, standard
    output, and the message of the panic that ended the run, if one did. *)
Definition main_result (W : Type) : Type :=
  (list Event * W * option string)%type.

(** [Args] is [os.Args], [Stdout] is [os.Stdout], and [fs path] is what the
    filesystem holds at [path].  A panic of [dirTree] comes from the build,
    which writes nothing, so standard output is then as it was. *)
Definition main {W} `{Writer W} (growcap : nat -> nat -> nat) (h : Heap)
    (Stdout : W) (fs : string -> Dir) (Args : list string) : main_result W :=
  let out := Stdout in
  if negb (bool_decide (length Args = 2%nat)
           || bool_decide (length Args = 3%nat)) then
    ([], out, Some usage)
  else
    match Args !! 1%nat with
    | None => ([], out, Some index_out_of_range)
    | Some path =>
        let printFiles :=
          bool_decide (length Args = 3%nat)
          && bool_decide (Args !! 2%nat = Some "-f") in
        match dirTree growcap h out (fs path) printFiles with
        | (t, Return (_, out', Some e)) => (t, out', Some (error_Error e))
        | (t, Return (_, out', None)) => (t, out', None)
        | (t, Panic msg) => (t, out, Some msg)
        end
    end.

(** ** Measures of a tree and of a run *)

(** A tree without file nodes. *)
Fixpoint only_dirs (node : Node) : bool :=
  match node with
  | DirInfo _ children => forallb only_dirs children
  | FileInfo _ _ => false
  end.

(** The number of nodes of a tree. *)
Fixpoint tree_size (node : Node) : nat :=
  match node with
  | DirInfo _ children => S (list_sum (tree_size <$> children))
  | FileInfo _ _ => 1
  end.

Definition forest_size (nodes : list Node) : nat :=
  list_sum (tree_size <$> nodes).

(** A writer that counts the calls of [Write]. *)
Definition Counter : Type := nat.

#[global] Instance Counter_Writer : Writer Counter :=
  fun n _ => (S n, None).

#[global] Instance Event_eq_dec : EqDecision Event.
Proof. solve_decision. Defined.

(** How often the call [e] is made in [t]. *)
Definition calls (e : Event) (t : list Event) : nat :=
  length (filter (fun e' => e' = e) t).

(** The number of directory entries in the listings of a tree, those of
    the subdirectories included. *)
Fixpoint dir_entries (d : Dir) : nat :=
  match d with
  | OpenError _ => 0
  | OpenOk files _ _ =>
      list_sum ((fun info =>
                   if IsDir info then S (dir_entries (at_path info)) else 0%nat)
                  <$> files)
  end.

(** The number of entries that a scan keeps, those of the subdirectories
    included: the directories, and the other entries when files are
    included. *)
Fixpoint kept_entries (withFiles : bool) (d : Dir) : nat :=
  match d with
  | OpenError _ => 0
  | OpenOk files _ _ =>
      list_sum ((fun info =>
                   if IsDir info then S (kept_entries withFiles (at_path info))
                   else if withFiles then 1%nat else 0%nat)
                  <$> files)
  end.

(** The tree without the entries that are not directories. *)
Fixpoint strip_files (d : Dir) : Dir :=
  match d with
  | OpenError e => OpenError e
  | OpenOk files readErr closeErr =>
      OpenOk
        (omap (fun info =>
                 if IsDir info then
                   Some (MkStat (Name info) (Size info) true
                           (strip_files (at_path info)))
                 else None)
           files)
        readErr closeErr
  end.

(** Two scans make the same calls and end alike: both panic with one
    message, or both return one error and pointers that are both nil or
    both not. *)
Definition ends_alike (r1 r2 : IO readDir_result) : Prop :=
  r1.1 = r2.1 /\
  match r1.2, r2.2 with
  | Return (p1, e1), Return (p2, e2) => e1 = e2 /\ (p1 = None <-> p2 = None)
  | Panic m1, Panic m2 => m1 = m2
  | _, _ => False
  end.

(** Reading a decimal numeral with a sign. *)
Definition parse_int (s : string) : Z :=
  match s with
  | String "-"%char s' => - decimal_value s'
  | _ => decimal_value s
  end.

(** A tree with a file between two directories, for the examples. *)
Definition fs_mixed : Dir :=
  OpenOk [MkStat "b.txt" 3 false regular_file;
          MkStat "c" 4096 true (OpenOk [] None None);
          MkStat "a" 4096 true
            (OpenOk [MkStat "z.txt" 0 false regular_file] None None)]
         None None.

(** * Properties *)

(** ** Strings *)

Lemma string_app_cons (c : ascii) (s1 s2 : string) :
  String c s1 +:+ s2 = String c (s1 +:+ s2).
Proof. done. Qed.

Lemma string_app_nil_l (s : string) : "" +:+ s = s.
Proof. done. Qed.

Lemma string_app_nil_r (s : string) : s +:+ "" = s.
Proof. induction s as [|c s IH]; [done|]. by rewrite string_app_cons IH. Qed.

Lemma string_app_assoc (s1 s2 s3 : string) :
  (s1 +:+ s2) +:+ s3 = s1 +:+ s2 +:+ s3.
Proof.
  induction s1 as [|c s1 IH]; [done|]. by rewrite !string_app_cons IH.
Qed.

Lemma join_cons (x : string) (l : list string) : join (x :: l) = x +:+ join l.
Proof. done. Qed.

Lemma join_app (l1 l2 : list string) : join (l1 ++ l2) = join l1 +:+ join l2.
Proof.
  induction l1 as [|x l1 IH]; [done|].
  by rewrite -app_comm_cons !join_cons IH string_app_assoc.
Qed.

(** ** concatStrings *)

Lemma concatStrings_range_ok (strings : list string) (buf : Buffer) :
  concatStrings_range buf None strings = (buf +:+ join strings, None).
Proof.
  revert buf; induction strings as [|item rest IH]; intros buf.
  - by rewrite /= /Buffer_String string_app_nil_r.
  - cbn [concatStrings_range Buffer_WriteString].
    by rewrite IH join_cons string_app_assoc.
Qed.

Lemma concatStrings_ok (strings : list string) :
  concatStrings strings = (join strings, None).
Proof. apply concatStrings_range_ok. Qed.

(** ** FormatInt *)

Lemma digit_decimal (u : Z) :
  0 <= u < 10 ->
  is_digit (digit u) = true /\ Z.of_N (N_of_ascii (digit u)) - 48 = u /\
  (0 < u -> digit u <> "0"%char).
Proof.
  intros Hu.
  assert (u = 0 \/ u = 1 \/ u = 2 \/ u = 3 \/ u = 4 \/ u = 5 \/ u = 6 \/
          u = 7 \/ u = 8 \/ u = 9) as Hc by lia.
  repeat (destruct Hc as [->|Hc]); try subst u;
    (split; [done|split; [done|]]); intros ?; (lia || done).
Qed.

Lemma all_digits_app (s1 s2 : string) :
  all_digits (s1 +:+ s2) = all_digits s1 && all_digits s2.
Proof.
  induction s1 as [|c s1 IH]; [done|].
  by rewrite string_app_cons /= IH andb_assoc.
Qed.

Lemma decimal_from_app (s1 s2 : string) (acc : Z) :
  decimal_from acc (s1 +:+ s2) = decimal_from (decimal_from acc s1) s2.
Proof.
  revert acc; induction s1 as [|c s1 IH]; intros acc; [done|].
  by rewrite string_app_cons /= IH.
Qed.

Lemma leading_zero_app (s1 s2 : string) :
  s1 <> "" -> leading_zero (s1 +:+ s2) = leading_zero s1.
Proof. by destruct s1. Qed.

(** The digit loop writes, in front of [acc], the decimal numeral of [u]. *)
Lemma formatBits_decimal (fuel : nat) (u : Z) (acc : string) :
  0 <= u < 2 ^ Z.of_nat fuel -> (0 < fuel)%nat ->
  exists ds,
    formatBits fuel u 10 acc = ds +:+ acc /\ ds <> "" /\
    all_digits ds = true /\ decimal_value ds = u /\
    (0 < u -> leading_zero ds = false).
Proof.
  revert u acc; induction fuel as [|fuel IH]; intros u acc Hu Hfuel; [lia|].
  simpl formatBits. destruct (Z.ltb_spec u 10) as [Hlt|Hge].
  - destruct (digit_decimal u) as (Hd & Hv & Hz); [lia|].
    exists (String (digit u) ""). split_and!.
    + done.
    + done.
    + cbn [all_digits]. by rewrite Hd.
    + rewrite /decimal_value. cbn [decimal_from]. lia.
    + intros Hpos. specialize (Hz Hpos). simpl.
      destruct (digit u) as [[] [] [] [] [] [] [] []]; done.
  - assert (0 <= u / 10 < 2 ^ Z.of_nat fuel) as Hq.
    { assert (2 ^ Z.of_nat (S fuel) = 2 * 2 ^ Z.of_nat fuel) as Hpow.
      { rewrite Nat2Z.inj_succ. apply Z.pow_succ_r. lia. }
      assert (0 < 2 ^ Z.of_nat fuel) by (apply Z.pow_pos_nonneg; lia).
      split; [apply Z.div_pos; lia|].
      apply Z.div_lt_upper_bound; lia. }
    assert (0 < fuel)%nat as Hfuel'.
    { destruct fuel; [|lia]. change (2 ^ Z.of_nat 0) with 1 in Hq.
      assert (1 <= u / 10) by (apply Z.div_le_lower_bound; lia). lia. }
    destruct (IH (u / 10) (String (digit (u mod 10)) acc) Hq Hfuel')
      as (ds & -> & Hne & Hall & Hval & Hlead).
    destruct (digit_decimal (u mod 10)) as (Hd & Hv & _).
    { apply Z.mod_pos_bound. lia. }
    exists (ds +:+ String (digit (u mod 10)) "").
    split_and!.
    + by rewrite string_app_assoc.
    + by destruct ds.
    + rewrite all_digits_app Hall. cbn [all_digits]. by rewrite Hd.
    + rewrite /decimal_value decimal_from_app -/(decimal_value ds) Hval.
      cbn [decimal_from]. rewrite Hv. pose proof (Z.div_mod u 10). lia.
    + intros _. rewrite leading_zero_app //.
      apply Hlead. apply Z.div_str_pos. lia.
Qed.

Lemma bit_length_bound (u : Z) : 0 <= u -> u < 2 ^ Z.of_nat (bit_length u).
Proof.
  intros Hu. pose proof (Z.log2_nonneg u) as Hlog.
  rewrite /bit_length Nat2Z.inj_succ Z2Nat.id //.
  destruct (decide (u = 0)) as [->|Hne]; [done|].
  apply Z.log2_spec. lia.
Qed.

Lemma FormatInt_decimal (n : Z) :
  0 < n ->
  all_digits (FormatInt n 10) = true /\
  leading_zero (FormatInt n 10) = false /\
  decimal_value (FormatInt n 10) = n.
Proof.
  intros Hn. rewrite /FormatInt.
  destruct (Z.ltb_spec n 0) as [?|_]; [lia|].
  destruct (formatBits_decimal (bit_length n) n "") as (ds & -> & _ & ? & ? & Hl).
  { split; [lia|]. apply bit_length_bound. lia. }
  { rewrite /bit_length. lia. }
  rewrite string_app_nil_r. auto.
Qed.

(** ** FileInfo.String *)

Lemma FileInfo_String_eq (name : string) (size : Z) :
  FileInfo_String name size =
    if size =? 0 then name +:+ " (empty)"
    else name +:+ " (" +:+ FormatInt size 10 +:+ "b)".
Proof.
  rewrite /FileInfo_String !concatStrings_ok /join /=.
  by rewrite !string_app_nil_r.
Qed.

(** C3: a file of size zero is shown as its name followed by " (empty)" and
    not by " (0b)"; a file of size N > 0 is shown as its name followed by
    " (Nb)", where N is written with decimal digits only, without a leading
    zero, and reads back as N. *)
Theorem FileInfo_String_label (name : string) (size : Z) :
  (size = 0 ->
     FileInfo_String name size = name +:+ " (empty)" /\
     FileInfo_String name size <> name +:+ " (0b)") /\
  (0 < size ->
     FileInfo_String name size = name +:+ " (" +:+ FormatInt size 10 +:+ "b)" /\
     all_digits (FormatInt size 10) = true /\
     leading_zero (FormatInt size 10) = false /\
     decimal_value (FormatInt size 10) = size).
Proof.
  split.
  - intros ->. rewrite FileInfo_String_eq /=. split; [done|].
    intros Heq. by apply (inj (String.app name)) in Heq.
  - intros Hpos. rewrite FileInfo_String_eq.
    destruct (Z.eqb_spec size 0) as [?|_]; [lia|].
    split; [done|]. by apply FormatInt_decimal.
Qed.

Lemma FileInfo_String_label_witness :
  (FileInfo_String "main.go" 0 = "main.go (empty)" /\
   FileInfo_String "main.go" 0 <> "main.go (0b)") /\
  (FileInfo_String "readme.txt" 120 = "readme.txt (120b)" /\
   all_digits (FormatInt 120 10) = true /\
   leading_zero (FormatInt 120 10) = false /\
   decimal_value (FormatInt 120 10) = 120).
Proof.
  split.
  - apply (FileInfo_String_label "main.go" 0). reflexivity.
  - apply (FileInfo_String_label "readme.txt" 120). lia.
Defined.

(** C10: [concatStrings] never returns an error, so the branches of
    [FileInfo.String] that return the empty string are never taken: the
    method always returns the label built from the name and the size, which
    is never empty. *)
Theorem FileInfo_String_never_fails (name : string) (size : Z) :
  (forall strings, concatStrings strings = (join strings, None)) /\
  FileInfo_String name size =
    name +:+ (if size =? 0 then " (empty)" else " (" +:+ FormatInt size 10 +:+ "b)") /\
  FileInfo_String name size <> "".
Proof.
  split; [apply concatStrings_ok|].
  rewrite FileInfo_String_eq.
  destruct (size =? 0); (split; [done|]); by destruct name.
Qed.

(** ** sort.Slice on names *)

Lemma ltb_false_le (s1 s2 : string) :
  String.ltb s1 s2 = false <-> String.le s2 s1.
Proof.
  rewrite /String.le /String.ltb /String.leb (String.compare_antisym s1 s2).
  destruct (String.compare s2 s1); simpl; split; done.
Qed.

Lemma ltb_true_le (s1 s2 : string) :
  String.ltb s1 s2 = true -> String.le s1 s2.
Proof.
  rewrite /String.le /String.ltb /String.leb.
  by destruct (String.compare s1 s2).
Qed.

Section SortTheory.
Context {A : Type} (key : A -> string).

#[global] Instance le_key_trans : Transitive (le_key key).
Proof. intros a b c. rewrite /(le_key key). apply transitivity. Qed.

Lemma sort_insert_perm (x : A) (l : list A) :
  sort_insert (less_key key) x l ≡ₚ x :: l.
Proof.
  induction l as [|y l IH]; [done|]. simpl.
  destruct ((less_key key) y x); [|done].
  rewrite IH. apply Permutation_swap.
Qed.

Lemma sort_Slice_perm (l : list A) : sort_Slice (less_key key) l ≡ₚ l.
Proof.
  induction l as [|x l IH]; [done|]. simpl.
  by rewrite sort_insert_perm IH.
Qed.

Lemma sort_insert_sorted (x : A) (l : list A) :
  Sorted (le_key key) l -> Sorted (le_key key) (sort_insert (less_key key) x l).
Proof.
  induction l as [|y l IH]; intros Hs; simpl.
  - by repeat constructor.
  - destruct ((less_key key) y x) eqn:Hyx.
    + apply Sorted_inv in Hs as [Hs Hhd]. constructor; [by apply IH|].
      destruct l as [|z l]; simpl.
      * constructor. by apply ltb_true_le.
      * destruct ((less_key key) z x); constructor.
        -- by apply HdRel_inv in Hhd.
        -- by apply ltb_true_le.
    + constructor; [done|]. constructor. by apply ltb_false_le.
Qed.

Lemma sort_Slice_sorted (l : list A) : Sorted (le_key key) (sort_Slice (less_key key) l).
Proof.
  induction l as [|x l IH]; simpl; [constructor|].
  by apply sort_insert_sorted.
Qed.

Lemma key_inj_on (l : list A) (x y : A) :
  NoDup (key <$> l) -> x ∈ l -> y ∈ l -> key x = key y -> x = y.
Proof.
  induction l as [|z l IH]; intros Hnd Hx Hy Hk; [by apply elem_of_nil in Hx|].
  rewrite fmap_cons in Hnd. apply NoDup_cons in Hnd as [Hz Hnd].
  apply elem_of_cons in Hx as [->|Hx]; apply elem_of_cons in Hy as [->|Hy].
  - done.
  - exfalso. apply Hz. rewrite Hk. by apply list_elem_of_fmap_2.
  - exfalso. apply Hz. rewrite -Hk. by apply list_elem_of_fmap_2.
  - by apply IH.
Qed.

(** Two listings with the same entries whose names are pairwise distinct
    have one sorted arrangement. *)
Lemma sorted_listing_unique (l1 l2 : list A) :
  NoDup (key <$> l1) -> l1 ≡ₚ l2 ->
  Sorted (le_key key) l1 -> Sorted (le_key key) l2 -> l1 = l2.
Proof.
  intros Hnd Hp Hs1 Hs2.
  apply (Sorted_unique_strong (le_key key)); [|done..].
  intros x y Hx Hy Hxy Hyx. apply (key_inj_on l1); [done|done|by rewrite Hp|].
  by apply (anti_symm String.le).
Qed.

Lemma sort_Slice_unique (l1 l2 : list A) :
  NoDup (key <$> l1) -> l1 ≡ₚ l2 ->
  sort_Slice (less_key key) l1 = sort_Slice (less_key key) l2.
Proof.
  intros Hnd Hp. apply sorted_listing_unique.
  - by rewrite sort_Slice_perm.
  - by rewrite !sort_Slice_perm.
  - apply sort_Slice_sorted.
  - apply sort_Slice_sorted.
Qed.
End SortTheory.

Lemma sort_insert_map {A B} (f : A -> B) (lessA : A -> A -> bool)
    (lessB : B -> B -> bool) (x : A) (l : list A) :
  (forall a b, lessB (f a) (f b) = lessA a b) ->
  sort_insert lessB (f x) (f <$> l) = f <$> sort_insert lessA x l.
Proof.
  intros Hless. induction l as [|y l IH]; [done|]. simpl.
  rewrite Hless. destruct (lessA y x); [|done]. by rewrite IH.
Qed.

Lemma sort_Slice_map {A B} (f : A -> B) (lessA : A -> A -> bool)
    (lessB : B -> B -> bool) (l : list A) :
  (forall a b, lessB (f a) (f b) = lessA a b) ->
  sort_Slice lessB (f <$> l) = f <$> sort_Slice lessA l.
Proof.
  intros Hless. induction l as [|x l IH]; [done|]. simpl.
  by rewrite IH (sort_insert_map f lessA).
Qed.

(** ** Induction on the filesystem and on the tree of nodes *)

Lemma Dir_ind' (P : Dir -> Prop) :
  (forall e, P (OpenError e)) ->
  (forall files readErr closeErr,
     Forall (fun info => P (at_path info)) files ->
     P (OpenOk files readErr closeErr)) ->
  forall d, P d.
Proof.
  intros Herr Hok. fix IH 1. intros [e|files readErr closeErr]; [apply Herr|].
  apply Hok. induction files as [|[n sz d t] files IHf]; constructor.
  - apply IH.
  - exact IHf.
Qed.

Lemma Node_ind' (P : Node -> Prop) :
  (forall name children, Forall P children -> P (DirInfo name children)) ->
  (forall name size, P (FileInfo name size)) ->
  forall node, P node.
Proof.
  intros Hdir Hfile. fix IH 1. intros [name children|name size]; [|apply Hfile].
  apply Hdir. induction children as [|c children IHc]; constructor.
  - apply IH.
  - exact IHc.
Qed.

(** ** readDir runs its loop over the sorted listing *)

Lemma readDir_range_loop (files : list FileStat) (nodes : Nodes_ptr)
    (withFiles : bool) :
  readDir_range
    ((fun info => (info, readDir (at_path info) (Some []) withFiles)) <$> files)
    nodes withFiles
  = readDir_loop files nodes withFiles.
Proof.
  revert nodes; induction files as [|info files IH]; intros nodes; [done|].
  simpl. destruct (negb (IsDir info || withFiles)); [apply IH|].
  destruct (IsDir info).
  - destruct (readDir (at_path info) (Some []) withFiles)
      as [t [[[c|] err]|msg]]; simpl; [|done..].
    destruct nodes as [l|]; [|done]. by rewrite IH.
  - simpl. destruct nodes as [l|]; [|done]. by rewrite IH.
Qed.

Lemma readDir_unfold (files : list FileStat) (readErr closeErr : option string)
    (nodes : Nodes_ptr) (withFiles : bool) :
  readDir (OpenOk files readErr closeErr) nodes withFiles =
    (_ ← emit EvOpen;
     _ ← emit EvReaddir;
     let err := OSError <$> readErr in
     defer (None, err)
       (nodes ← readDir_loop (sort_Slice less_Name files) nodes withFiles;
        mret (nodes, err))
       (fun '(result, err) =>
          _ ← emit EvClose;
          let cErr := OSError <$> closeErr in
          mret (result, if err is None then cErr else err))).
Proof.
  cbn [readDir].
  rewrite (sort_Slice_map
             (fun info => (info, readDir (at_path info) (Some []) withFiles))
             less_Name); [done|].
  by rewrite readDir_range_loop.
Qed.

(** ** The calls of a scan *)

Lemma open_handles_app (t1 t2 : list Event) (k : nat) :
  open_handles k (t1 ++ t2) = open_handles k t1 ≫= fun k' => open_handles k' t2.
Proof.
  revert k; induction t1 as [|e t1 IH]; intros k; [done|].
  destruct e; simpl; try apply IH. destruct k; [done|apply IH].
Qed.

Lemma readDir_OpenOk (files : list FileStat) (readErr closeErr : option string)
    (nodes : Nodes_ptr) (withFiles : bool) :
  readDir (OpenOk files readErr closeErr) nodes withFiles =
    let loop := readDir_loop (sort_Slice less_Name files) nodes withFiles in
    (EvOpen :: EvReaddir :: loop.1 ++ [EvClose],
     match loop.2 with
     | Return nodes => Return (nodes, first_error readErr closeErr)
     | Panic msg => Panic msg
     end).
Proof.
  rewrite readDir_unfold.
  destruct (readDir_loop _ nodes withFiles) as [t [n|msg]]; simpl.
  - rewrite app_nil_r. by destruct readErr.
  - done.
Qed.

(** One iteration of the loop, by the kind of the entry. *)
Lemma readDir_loop_skip info rest nodes :
  IsDir info = false ->
  readDir_loop (info :: rest) nodes false = readDir_loop rest nodes false.
Proof. intros Hd. by rewrite /= Hd. Qed.

Lemma readDir_loop_file info rest l :
  IsDir info = false ->
  readDir_loop (info :: rest) (Some l) true =
    readDir_loop rest (Some (l ++ [FileInfo (Name info) (Size info)])) true.
Proof.
  intros Hd. rewrite /= Hd /=.
  by destruct (readDir_loop rest _ true).
Qed.

Lemma readDir_loop_dir info rest l withFiles :
  IsDir info = true ->
  readDir_loop (info :: rest) (Some l) withFiles =
    match readDir (at_path info) (Some []) withFiles with
    | (t, Return (Some c, _)) =>
        let '(t', r) :=
          readDir_loop rest (Some (l ++ [DirInfo (Name info) c])) withFiles in
        (t ++ t', r)
    | (t, Return (None, _)) => (t, Panic nil_dereference)
    | (t, Panic msg) => (t, Panic msg)
    end.
Proof.
  intros Hd. rewrite /= Hd /=.
  destruct (readDir (at_path info) (Some []) withFiles) as [t [[[c|] err]|msg]];
    simpl; rewrite ?app_nil_r //.
Qed.

Lemma readDir_loop_balanced (files : list FileStat) :
  Forall (fun info => forall nodes withFiles k,
            open_handles k (readDir (at_path info) nodes withFiles).1 = Some k)
    files ->
  forall nodes withFiles k,
    open_handles k (readDir_loop files nodes withFiles).1 = Some k.
Proof.
  induction 1 as [|info files Hinfo _ IH]; intros nodes withFiles k; [done|].
  destruct (IsDir info) eqn:Hd.
  - destruct nodes as [l|].
    + rewrite readDir_loop_dir //.
      specialize (Hinfo (Some []) withFiles k).
      destruct (readDir (at_path info) (Some []) withFiles)
        as [t [[[c|] err]|msg]]; simpl in *; try done.
      specialize (IH (Some (l ++ [DirInfo (Name info) c])) withFiles k).
      destruct (readDir_loop files _ withFiles) as [t' r]; simpl in *.
      by rewrite open_handles_app Hinfo.
    + rewrite /= Hd /=.
      specialize (Hinfo (Some []) withFiles k).
      destruct (readDir (at_path info) (Some []) withFiles)
        as [t [[[c|] err]|msg]]; simpl in *; rewrite ?app_nil_r //.
  - destruct withFiles; [|by rewrite readDir_loop_skip].
    destruct nodes as [l|]; [by rewrite readDir_loop_file|].
    by rewrite /= Hd.
Qed.

Lemma readDir_balanced (path : Dir) (nodes : Nodes_ptr) (withFiles : bool)
    (k : nat) :
  open_handles k (readDir path nodes withFiles).1 = Some k.
Proof.
  revert nodes withFiles k.
  induction path as [e|files readErr closeErr IH] using Dir_ind';
    intros nodes withFiles k; [done|].
  rewrite readDir_OpenOk. cbn [fst open_handles].
  rewrite open_handles_app readDir_loop_balanced //.
  eapply Forall_forall. intros info Hin.
  rewrite Forall_forall in IH. apply IH.
  by rewrite -(sort_Slice_perm Name files).
Qed.

(** C7: in a scan whose open succeeded the handle is closed as the last
    call of the scan, after every call made for the subdirectories, whether
    the scan returns or panics; the scans of the subdirectories leave no
    handle open; and a scan that returns reports the error of the listing if
    there is one, and the error of the close only if there is none. *)
Theorem readDir_closes_handle (files : list FileStat)
    (readErr closeErr : option string) (nodes : Nodes_ptr) (withFiles : bool) :
  exists t,
    (readDir (OpenOk files readErr closeErr) nodes withFiles).1
    = EvOpen :: EvReaddir :: t ++ [EvClose] /\
    (forall k, open_handles k t = Some k) /\
    (forall result err,
       (readDir (OpenOk files readErr closeErr) nodes withFiles).2
       = Return (result, err) ->
       (readErr = None -> err = OSError <$> closeErr) /\
       (forall e, readErr = Some e -> err = Some (OSError e))).
Proof.
  rewrite readDir_OpenOk.
  exists (readDir_loop (sort_Slice less_Name files) nodes withFiles).1.
  split_and!.
  - done.
  - intros k. apply readDir_loop_balanced.
    apply Forall_forall. intros info _ nodes' withFiles' k'.
    apply readDir_balanced.
  - intros result err. cbn [snd].
    destruct (readDir_loop _ nodes withFiles).2 as [n|msg]; [|done].
    intros [= _ <-]. split; [by intros ->|by intros e ->].
Qed.

Lemma readDir_closes_handle_witness :
  exists t,
    (readDir (OpenOk [] None (Some "bad file descriptor")) (Some []) true).1
    = EvOpen :: EvReaddir :: t ++ [EvClose] /\
    (forall k, open_handles k t = Some k) /\
    (forall result err,
       (readDir (OpenOk [] None (Some "bad file descriptor")) (Some []) true).2
       = Return (result, err) ->
       ((None : option string) = None ->
        err = OSError <$> Some "bad file descriptor") /\
       (forall e, None = Some e -> err = Some (OSError e))).
Proof.
  apply (readDir_closes_handle [] None (Some "bad file descriptor") (Some []) true).
Defined.

(** ** What the loop builds *)

Lemma filter_kept_cons_true withFiles info (rest : list FileStat) :
  kept withFiles info = true ->
  filter (fun i => kept withFiles i) (info :: rest)
  = info :: filter (fun i => kept withFiles i) rest.
Proof. intros Hk. apply filter_cons_True. by rewrite Hk. Qed.

Lemma filter_kept_cons_false withFiles info (rest : list FileStat) :
  kept withFiles info = false ->
  filter (fun i => kept withFiles i) (info :: rest)
  = filter (fun i => kept withFiles i) rest.
Proof. intros Hk. apply filter_cons_False. rewrite Hk. by intros []. Qed.

Lemma readDir_loop_returns (files : list FileStat) (init : list Node)
    (withFiles : bool) (t : list Event) (r : Nodes_ptr) :
  readDir_loop files (Some init) withFiles = (t, Return r) ->
  exists built,
    r = Some (init ++ built) /\
    Forall2 (node_of withFiles)
      (filter (fun i => kept withFiles i) files) built.
Proof.
  revert init t; induction files as [|info rest IH]; intros init t Hrun.
  - injection Hrun as <- <-. exists []. by rewrite app_nil_r.
  - destruct (IsDir info) eqn:Hd.
    + rewrite readDir_loop_dir // in Hrun.
      destruct (readDir (at_path info) (Some []) withFiles)
        as [t1 [[[c|] err]|msg]] eqn:Hsub; try done.
      destruct (readDir_loop rest _ withFiles) as [t' r'] eqn:Hrest.
      injection Hrun as <- ->.
      destruct (IH _ _ Hrest) as (built & -> & Hbuilt).
      exists (DirInfo (Name info) c :: built). split.
      * by rewrite -app_assoc.
      * rewrite filter_kept_cons_true; [by rewrite /kept Hd|].
        constructor; [|done]. split_and!; [done..|]. by exists t1, err.
    + destruct withFiles.
      * rewrite readDir_loop_file // in Hrun.
        destruct (IH _ _ Hrun) as (built & -> & Hbuilt).
        exists (FileInfo (Name info) (Size info) :: built). split.
        -- by rewrite -app_assoc.
        -- rewrite filter_kept_cons_true; [by rewrite /kept Hd|].
           by constructor.
      * rewrite readDir_loop_skip // in Hrun.
        destruct (IH _ _ Hrun) as (built & -> & Hbuilt).
        exists built. split; [done|].
        rewrite filter_kept_cons_false //. by rewrite /kept Hd.
Qed.

(** A scan that returns a nil pointer is one whose open failed, and it
    returns the error of the open. *)
Lemma readDir_returns (path : Dir) (init : list Node) (withFiles : bool)
    (t : list Event) (r : Nodes_ptr) (err : option error) :
  readDir path (Some init) withFiles = (t, Return (r, err)) ->
  (exists e, path = OpenError e /\ r = None /\ err = Some (OSError e)) \/
  (exists files readErr closeErr built,
     path = OpenOk files readErr closeErr /\
     r = Some (init ++ built) /\
     err = first_error readErr closeErr /\
     Forall2 (node_of withFiles)
       (filter (fun i => kept withFiles i) (sort_Slice less_Name files)) built).
Proof.
  destruct path as [e|files readErr closeErr].
  - intros [= <- <- <-]. left. by exists e.
  - rewrite readDir_OpenOk. cbn zeta.
    destruct (readDir_loop _ (Some init) withFiles) as [t' [n|msg]] eqn:Hloop;
      [|done].
    intros [= <- <- <-]. right.
    destruct (readDir_loop_returns _ _ _ _ _ Hloop) as (built & -> & Hbuilt).
    by exists files, readErr, closeErr, built.
Qed.

(** ** Subdirectories that cannot be read *)

(** C1 (what the code does): the scan of a root with a subdirectory that
    cannot be opened does not return.  The failed open returns a nil
    pointer, and the loop dereferences it; the handle of the root is closed
    while the panic unwinds, and the subdirectory that follows is never
    scanned. *)
Theorem readDir_denied_subdirectory_panics :
  readDir fs_denied (Some []) false
  = ([EvOpen; EvReaddir; EvOpenFailed; EvClose], Panic nil_dereference) /\
  readDir fs_denied (Some []) true
  = ([EvOpen; EvReaddir; EvOpenFailed; EvClose], Panic nil_dereference).
Proof. split; reflexivity. Qed.

(** A subdirectory whose listing fails after its open succeeded is kept,
    with the entries read before the failure as its children, and the scan
    goes on with its siblings; the error is dropped. *)
Example readDir_partial_listing :
  readDir fs_partial (Some []) true
  = ([EvOpen; EvReaddir; EvOpen; EvReaddir; EvClose;
      EvOpen; EvReaddir; EvClose; EvClose],
     Return (Some [DirInfo "broken" [FileInfo "a.txt" 7]; DirInfo "public" []],
             None)).
Proof. reflexivity. Qed.

(** In general: when the listing of a subdirectory fails after its open
    succeeded and its scan returns, the scan returns the error of the
    listing, the loop drops it, appends the directory node with the
    children that were built, and goes on with the remaining entries. *)
Lemma readDir_loop_listing_error info rest l withFiles files e closeErr :
  IsDir info = true ->
  at_path info = OpenOk files (Some e) closeErr ->
  forall t c err,
    readDir (at_path info) (Some []) withFiles = (t, Return (Some c, err)) ->
    err = Some (OSError e) /\
    readDir_loop (info :: rest) (Some l) withFiles =
      let '(t', r) :=
        readDir_loop rest (Some (l ++ [DirInfo (Name info) c])) withFiles in
      (t ++ t', r).
Proof.
  intros Hd Hpath t c err Hsub. split.
  - rewrite Hpath in Hsub.
    destruct (readDir_returns _ _ _ _ _ _ Hsub)
      as [(e' & ? & _)|(? & ? & ? & ? & [= <- <- <-] & _ & -> & _)]; done.
  - by rewrite readDir_loop_dir // Hsub.
Qed.

(** ** Slices and append *)

Lemma frame_refl (s : Slice) (h : Heap) : frame s h h.
Proof. intros p a Hp. by exists a. Qed.

Lemma frame_trans (s : Slice) (h1 h2 h3 : Heap) :
  frame s h1 h2 -> frame s h2 h3 -> frame s h1 h3.
Proof.
  intros H12 H23 p a Hp.
  destruct (H12 p a Hp) as (a2 & Hp2 & Hl2 & Ha2).
  destruct (H23 p a2 Hp2) as (a3 & Hp3 & Hl3 & Ha3).
  exists a3. split_and!; [done|congruence|].
  intros j Hj. by rewrite Ha3 // Ha2.
Qed.

Lemma frame_elems (s : Slice) (h h' : Heap) :
  valid_slice h s -> frame s h h' ->
  valid_slice h' s /\ elems h' s = elems h s.
Proof.
  intros (a & Hp & Hlen & Hcap) Hf.
  destruct (Hf _ _ Hp) as (a' & Hp' & Hl & Ha). split.
  - exists a'. rewrite Hl. done.
  - rewrite /elems Hp Hp' /=. apply list_eq. intros j.
    destruct (decide (j < len s)%nat) as [Hj|Hj].
    + rewrite !lookup_take_lt //. apply Ha. by right.
    + rewrite !lookup_take_ge //; lia.
Qed.

Lemma elems_length (h : Heap) (s : Slice) :
  valid_slice h s -> length (elems h s) = len s.
Proof.
  intros (a & Hp & Hlen & _). rewrite /elems Hp /= length_take. lia.
Qed.

Lemma empty_slice_valid (h : Heap) :
  valid_slice (empty_slice h).1 (empty_slice h).2 /\
  elems (empty_slice h).1 (empty_slice h).2 = [].
Proof.
  rewrite /empty_slice /valid_slice /elems /=. split; [|done].
  exists []. rewrite lookup_app_r // Nat.sub_diag /=. split_and!; [done|lia..].
Qed.

Section AppendTheory.
Variable growcap : nat -> nat -> nat.

(** [append] yields a slice with one more element; the elements of the
    slice it was given are not touched, also by whoever uses the new
    slice within its own bounds. *)
Lemma append_spec (h : Heap) (s : Slice) (x : string) :
  valid_slice h s ->
  let h1 := (append growcap h s x).1 in
  let s1 := (append growcap h s x).2 in
  valid_slice h1 s1 /\ elems h1 s1 = elems h s ++ [x] /\
  forall h', frame s1 h1 h' -> frame s h h'.
Proof.
  intros Hv. pose proof (elems_length _ _ Hv) as Hel.
  destruct Hv as (a & Hp & Hlen & Hcap).
  rewrite /append. case_bool_decide as Hlt; cbn [fst snd].
  - assert (alter (fun a0 => <[len s:=x]> a0) (ptr s) h !! ptr s
            = Some (<[len s:=x]> a)) as Hp1.
    { by rewrite list_lookup_alter_eq Hp. }
    split_and!.
    + exists (<[len s:=x]> a). rewrite length_insert /=. split_and!; [done|lia..].
    + rewrite /elems /= Hp1 Hp /=.
      rewrite (take_S_r _ _ x); [apply list_lookup_insert_eq; lia|].
      by rewrite take_insert_ge.
    + intros h' Hf p b Hb.
      destruct (decide (p = ptr s)) as [->|Hne].
      * assert (b = a) as -> by congruence.
        destruct (Hf _ _ Hp1) as (a' & Hp' & Hl & Ha).
        exists a'. rewrite length_insert in Hl. split_and!; [done..|].
        intros j [Hj|Hj]; [done|].
        rewrite Ha /=; [right; lia|].
        apply list_lookup_insert_ne. lia.
      * assert (alter (fun a0 => <[len s:=x]> a0) (ptr s) h !! p = Some b) as Hb1.
        { by rewrite list_lookup_alter_ne. }
        destruct (Hf _ _ Hb1) as (b' & Hp' & Hl & Ha).
        exists b'. split_and!; [done..|].
        intros j _. apply Ha. by left.
  - set (new := elems h s ++ x :: replicate _ "").
    assert ((h ++ [new]) !! length h = Some new) as Hp1.
    { by rewrite lookup_app_r // Nat.sub_diag. }
    assert (length new = (S (len s) + (growcap (cap s) (S (len s)) - S (len s)))%nat)
      as Hnew.
    { rewrite /new length_app /= length_replicate Hel. lia. }
    split_and!.
    + exists new. rewrite /= Hnew. split_and!; [done|lia..].
    + rewrite {1}/elems /= Hp1 /= /new.
      rewrite cons_middle app_assoc take_app_length' //.
      rewrite length_app /= Hel. lia.
    + intros h' Hf p b Hb.
      assert ((h ++ [new]) !! p = Some b) as Hb1.
      { rewrite lookup_app_l //. by eapply lookup_lt_Some. }
      destruct (Hf _ _ Hb1) as (b' & Hp' & Hl & Ha).
      exists b'. split_and!; [done..|].
      intros j _. apply Ha. left. simpl.
      apply lookup_lt_Some in Hb. lia.
Qed.
End AppendTheory.

(** ** printDir writes what render says *)

Lemma last_flags_S (n : nat) :
  last_flags (S (S n)) = false :: last_flags (S n).
Proof. rewrite /last_flags /=. by rewrite Nat.sub_0_r. Qed.

Lemma render_nil (ps : list string) : render ps [] = [].
Proof. done. Qed.

Lemma render_last (ps : list string) (node : Node) :
  render ps [node] = node_writes ps node true.
Proof. by rewrite /render /= app_nil_r. Qed.

Lemma render_more (ps : list string) (node : Node) (rest : list Node) :
  rest <> [] ->
  render ps (node :: rest) = node_writes ps node false ++ render ps rest.
Proof.
  intros Hne. destruct rest as [|node' rest]; [done|].
  by rewrite /render /length -/(length rest) last_flags_S.
Qed.

Lemma node_writes_eq (ps : list string) (node : Node) (last : bool) :
  node_writes ps node last =
    join ps :: (connector last +:+ Node_String node +:+ newline) ::
    render (ps ++ [fragment last]) (children_of node).
Proof. by destruct node. Qed.

Section RenderTheory.
Variable growcap : nat -> nat -> nat.
Context {W : Type} `{Writer W}.

Lemma write_all_app (out : W) (ws1 ws2 : list string) :
  write_all out (ws1 ++ ws2) =
    match (write_all out ws1).2 with
    | Some e => write_all out ws1
    | None => write_all (write_all out ws1).1 ws2
    end.
Proof.
  revert out; induction ws1 as [|w ws1 IH]; intros out; [done|].
  cbn [app write_all]. destruct (Fprintf out w) as [out' [e|]]; [done|].
  apply IH.
Qed.

Lemma printDir_level_render descend (nodes : list Node) :
  Forall (descend_ok descend) nodes ->
  forall h out s, valid_slice h s ->
    exists h',
      printDir_level growcap descend h out nodes s
      = with_heap h' (write_all out (render (elems h s) nodes)) /\
      frame s h h'.
Proof.
  induction 1 as [|node rest Hnode _ IH]; intros h out s Hv.
  { exists h. split; [done|apply frame_refl]. }
  cbn [printDir_level]. rewrite concatStrings_ok.
  destruct (decide (rest = [])) as [->|Hrest].
  - rewrite render_last node_writes_eq. cbn [write_all length].
    destruct (Fprintf out (join (elems h s))) as [out1 [e|]];
      [exists h; split; [done|apply frame_refl]|].
    rewrite bool_decide_eq_true_2 //.
    change ("└───" +:+ Node_String node +:+ newline)
      with (connector true +:+ Node_String node +:+ newline).
    destruct (Fprintf out1 _) as [out2 [e|]];
      [exists h; split; [done|apply frame_refl]|].
    destruct node as [name children|name size];
      [|exists h; split; [done|apply frame_refl]].
    destruct (append_spec growcap h s (fragment true) Hv) as (Hv1 & Hel1 & Hf1).
    change tab with (fragment true).
    destruct (append growcap h s (fragment true)) as [h1 s1]; cbn [fst snd] in *.
    destruct (Hnode h1 out2 s1 Hv1) as (h' & -> & Hf).
    exists h'. rewrite Hel1. split; [done|by apply Hf1].
  - rewrite render_more // node_writes_eq. cbn [write_all app length].
    destruct (Fprintf out (join (elems h s))) as [out1 [e|]];
      [exists h; split; [done|apply frame_refl]|].
    rewrite bool_decide_eq_false_2; [destruct rest; naive_solver|].
    change ("├───" +:+ Node_String node +:+ newline)
      with (connector false +:+ Node_String node +:+ newline).
    destruct (Fprintf out1 _) as [out2 [e|]];
      [exists h; split; [done|apply frame_refl]|].
    rewrite write_all_app.
    change ("│" +:+ tab) with (fragment false).
    assert (exists h2,
      match node with
      | DirInfo _ _ =>
          let '(h0, extended) := append growcap h s (fragment false) in
          descend node h0 out2 extended
      | FileInfo _ _ => (h, out2, None)
      end
      = with_heap h2
          (write_all out2
             (render (elems h s ++ [fragment false]) (children_of node))) /\
      frame s h h2) as (h2 & -> & Hf2).
    { destruct node as [name children|name size];
        [|exists h; split; [done|apply frame_refl]].
      destruct (append_spec growcap h s (fragment false) Hv) as (Hv1 & Hel1 & Hf1).
      destruct (append growcap h s (fragment false)) as [h1 s1];
        cbn [fst snd] in *.
      destruct (Hnode h1 out2 s1 Hv1) as (h' & -> & Hf).
      exists h'. rewrite Hel1. split; [done|by apply Hf1]. }
    rewrite /with_heap.
    destruct (write_all out2 _) as [out3 [e|]]; cbn [fst snd].
    { by exists h2. }
    destruct (frame_elems _ _ _ Hv Hf2) as (Hv2 & Hel2).
    destruct (IH h2 out3 s Hv2) as (h' & -> & Hf).
    exists h'. rewrite Hel2. split; [done|by eapply frame_trans].
Qed.

Lemma printDir_children_render (node : Node) :
  descend_ok (printDir_children growcap) node.
Proof.
  induction node as [name children IH|name size] using Node_ind';
    intros h out s Hv.
  - cbn [printDir_children children_of].
    by apply printDir_level_render.
  - exists h. split; [done|apply frame_refl].
Qed.

(** [printDir] makes the writes of [render] for the elements of its slice
    of prefixes, up to the first write that fails, and leaves the elements
    of that slice as they were. *)
Lemma printDir_render (h : Heap) (out : W) (nodes : list Node) (s : Slice) :
  valid_slice h s ->
  exists h',
    printDir growcap h out nodes s
    = with_heap h' (write_all out (render (elems h s) nodes)) /\
    frame s h h'.
Proof.
  apply printDir_level_render, Forall_forall.
  intros node _. apply printDir_children_render.
Qed.
End RenderTheory.

(** ** The lines of a sibling sequence *)

Lemma render_zip (ps : list string) (nodes : list Node) :
  render ps nodes =
    concat (zip_with
      (fun node (last : bool) =>
         join ps :: ((if last then "└───" else "├───")
                     +:+ Node_String node +:+ newline) ::
         render (ps ++ [fragment last]) (children_of node))
      nodes (replicate (length nodes - 1) false ++ [true])).
Proof.
  rewrite /render -/(last_flags (length nodes)). f_equal.
  apply zip_with_ext; [|done..]. intros node last. apply node_writes_eq.
Qed.

(** C4: for a sequence of siblings [printDir] makes, node by node and up to
    the first write that fails, a write of the concatenated prefix and a
    write of the connector, the display string of the node and a newline,
    followed by the writes for the children of the node; the connector is
    "└───" for the last node of the sequence and "├───" for every other
    one. *)
Theorem printDir_sibling_lines (growcap : nat -> nat -> nat) {W : Type}
    `{Writer W} (h : Heap) (out : W) (nodes : list Node) (s : Slice) :
  valid_slice h s ->
  exists h',
    printDir growcap h out nodes s =
      with_heap h'
        (write_all out
           (concat (zip_with
              (fun node (last : bool) =>
                 join (elems h s) ::
                 ((if last then "└───" else "├───")
                  +:+ Node_String node +:+ newline) ::
                 render (elems h s ++ [fragment last]) (children_of node))
              nodes (replicate (length nodes - 1) false ++ [true])))).
Proof.
  intros Hv. destruct (printDir_render growcap h out nodes s Hv) as (h' & -> & _).
  exists h'. by rewrite render_zip.
Qed.

Lemma printDir_sibling_lines_witness :
  exists h',
    printDir double_cap [[]] ("" : Buffer) example_nodes
      {| ptr := 0; len := 0; cap := 0 |} =
      with_heap h'
        (write_all ("" : Buffer)
           (concat (zip_with
              (fun node (last : bool) =>
                 join (elems [[]] {| ptr := 0; len := 0; cap := 0 |}) ::
                 ((if last then "└───" else "├───")
                  +:+ Node_String node +:+ newline) ::
                 render (elems [[]] {| ptr := 0; len := 0; cap := 0 |}
                           ++ [fragment last]) (children_of node))
              example_nodes
              (replicate (length example_nodes - 1) false ++ [true])))).
Proof.
  apply (printDir_sibling_lines double_cap [[]] ("" : Buffer) example_nodes
           {| ptr := 0; len := 0; cap := 0 |}).
  exists []. simpl. split_and!; [reflexivity|lia|lia].
Defined.

(** ** Output into a buffer *)

Lemma write_all_Buffer (out : Buffer) (ws : list string) :
  write_all out ws = (out +:+ join ws, None).
Proof.
  revert out; induction ws as [|w ws IH]; intros out.
  - by rewrite /= string_app_nil_r.
  - rewrite join_cons. cbn [write_all].
    rewrite /Fprintf /Write /Buffer_Writer. cbn [fmap option_fmap option_map].
    by rewrite IH string_app_assoc.
Qed.

Lemma printDir_Buffer (growcap : nat -> nat -> nat) (h : Heap) (out : Buffer)
    (nodes : list Node) (s : Slice) :
  valid_slice h s ->
  exists h',
    printDir growcap h out nodes s
    = (h', out +:+ join (render (elems h s) nodes), None) /\
    frame s h h'.
Proof.
  intros Hv. destruct (printDir_render growcap h out nodes s Hv) as (h' & -> & Hf).
  exists h'. by rewrite write_all_Buffer.
Qed.

Lemma printed_render (growcap : nat -> nat -> nat) (ps : list string)
    (nodes : list Node) :
  printed growcap ps nodes = join (render ps nodes).
Proof.
  rewrite /printed.
  destruct (printDir_Buffer growcap [ps] "" nodes
              {| ptr := 0; len := length ps; cap := length ps |})
    as (h' & -> & _).
  - exists ps. simpl. split_and!; [done|lia..].
  - by rewrite /elems /= firstn_all.
Qed.

(** C5: when the first node of the sequence is a directory, what [printDir]
    appends to a buffer is the line of the directory, then what it prints
    for the children with the current prefix extended by one fragment (a
    tab when the directory is the last node of the sequence, a bar and a
    tab otherwise), then what it prints for the remaining siblings with the
    current prefix; and the elements of the slice of prefixes are afterwards
    what they were. *)
Theorem printDir_descends (growcap : nat -> nat -> nat) (h : Heap)
    (out : Buffer) (name : string) (children post : list Node) (s : Slice) :
  valid_slice h s ->
  let last := bool_decide (post = []) in
  let r := printDir growcap h out (DirInfo name children :: post) s in
  r.1.2 =
    out +:+ join (elems h s) +:+ connector last +:+ name +:+ newline
        +:+ printed growcap (elems h s ++ [fragment last]) children
        +:+ printed growcap (elems h s) post /\
  r.2 = None /\
  elems r.1.1 s = elems h s /\
  fragment true = tab /\
  fragment false = "│" +:+ tab.
Proof.
  intros Hv last r.
  destruct (printDir_Buffer growcap h out (DirInfo name children :: post) s Hv)
    as (h' & Hr & Hf).
  rewrite /r Hr. cbn [fst snd]. rewrite !printed_render.
  split_and!; [|done|by apply (frame_elems s h h')|done..].
  f_equal. rewrite /last. case_bool_decide as Hpost.
  - subst post. rewrite render_last node_writes_eq render_nil !join_cons.
    change (join []) with "". cbn [children_of Node_String].
    by rewrite /DirInfo_String !string_app_assoc string_app_nil_r.
  - rewrite render_more // node_writes_eq -!app_comm_cons !join_cons join_app.
    cbn [children_of Node_String].
    by rewrite /DirInfo_String !string_app_assoc.
Qed.

Lemma printDir_descends_witness :
  let h := [[]] in
  let s := {| ptr := 0; len := 0; cap := 0 |} in
  let post := [FileInfo "main.go" 0] in
  let last := bool_decide (post = []) in
  let r := printDir double_cap h ("" : Buffer)
             (DirInfo "docs" [FileInfo "readme.txt" 120] :: post) s in
  r.1.2 =
    "" +:+ join (elems h s) +:+ connector last +:+ "docs" +:+ newline
       +:+ printed double_cap (elems h s ++ [fragment last])
             [FileInfo "readme.txt" 120]
       +:+ printed double_cap (elems h s) post /\
  r.2 = None /\
  elems r.1.1 s = elems h s /\
  fragment true = tab /\
  fragment false = "│" +:+ tab.
Proof.
  apply (printDir_descends double_cap [[]] ("" : Buffer) "docs"
           [FileInfo "readme.txt" 120] [FileInfo "main.go" 0]
           {| ptr := 0; len := 0; cap := 0 |}).
  exists []. simpl. split_and!; [reflexivity|lia|lia].
Defined.

(** ** dirTree *)

Section DirTreeTheory.
Variable growcap : nat -> nat -> nat.
Context {W : Type} `{Writer W}.

Lemma dirTree_eq (h : Heap) (out : W) (path : Dir) (isPrintFiles : bool) :
  dirTree growcap h out path isPrintFiles =
    match readDir path (Some []) isPrintFiles with
    | (t, Return (_, Some e)) => (t, Return (h, out, Some e))
    | (t, Return (None, None)) =>
        (t, Return (h, out, Some (ErrorsNew "no nodes for you")))
    | (t, Return (Some nodes, None)) =>
        (t, Return (printDir growcap (empty_slice h).1 out nodes
                      (empty_slice h).2))
    | (t, Panic msg) => (t, Panic msg)
    end.
Proof.
  rewrite /dirTree.
  destruct (readDir path (Some []) isPrintFiles) as [t [[[nodes|] [e|]]|msg]];
    simpl; by rewrite ?app_nil_r.
Qed.

(** When the build returns nodes and no error, [dirTree] makes the writes
    of [render] for these nodes with an empty prefix. *)
Lemma dirTree_render (h : Heap) (out : W) (path : Dir) (isPrintFiles : bool)
    (t : list Event) (nodes : list Node) :
  readDir path (Some []) isPrintFiles = (t, Return (Some nodes, None)) ->
  observable (dirTree growcap h out path isPrintFiles)
  = (t, Return (write_all out (render [] nodes))).
Proof.
  intros Hbuild. rewrite dirTree_eq Hbuild.
  destruct (empty_slice_valid h) as [Hv Hel].
  destruct (printDir_render growcap _ out nodes _ Hv) as (h' & -> & _).
  rewrite Hel /observable /with_heap /=.
  by destruct (write_all out (render [] nodes)).
Qed.

(** An error of a write is the error of the writer. *)
Lemma write_all_error (out : W) (ws : list string) (e : error) :
  (write_all out ws).2 = Some e -> exists msg, e = WriterError msg.
Proof.
  revert out; induction ws as [|w ws IH]; intros out; [done|].
  cbn [write_all]. rewrite /Fprintf.
  destruct (Write out w) as [out' [msg|]]; simpl; [|apply IH].
  intros [= <-]. by exists msg.
Qed.

(** When the root cannot be opened [dirTree] returns the error of the open;
    when the listing of the root fails and the build returns, [dirTree]
    returns the error of the listing.  In both cases it returns the heap
    and the writer it was given: nothing has been written. *)
Lemma dirTree_root_error (h : Heap) (out : W) (isPrintFiles : bool) :
  (forall e,
     dirTree growcap h out (OpenError e) isPrintFiles
     = ([EvOpenFailed], Return (h, out, Some (OSError e)))) /\
  (forall files e closeErr r,
     (dirTree growcap h out (OpenOk files (Some e) closeErr) isPrintFiles).2
     = Return r ->
     r = (h, out, Some (OSError e))).
Proof.
  split; [done|]. intros files e closeErr r. rewrite dirTree_eq.
  destruct (readDir _ (Some []) isPrintFiles) as [t [[nodes err]|msg]] eqn:Hb;
    [|by destruct msg].
  destruct (readDir_returns _ _ _ _ _ _ Hb)
    as [(? & ? & _)|(? & ? & ? & ? & [= <- <- <-] & _ & -> & _)]; [done|].
  intros Hr. destruct nodes; simpl in Hr; by injection Hr as <-.
Qed.
End DirTreeTheory.

(** C9: a scan that was given a pointer and returns without an error
    returns a pointer that is not nil, and [dirTree] never returns the
    error "no nodes for you". *)
Theorem readDir_never_nil (growcap : nat -> nat -> nat) {W : Type} `{Writer W}
    (h : Heap) (out : W) (path : Dir) (withFiles : bool) :
  (forall init t r,
     readDir path (Some init) withFiles = (t, Return (r, None)) -> is_Some r) /\
  (forall t h' out' e,
     dirTree growcap h out path withFiles = (t, Return (h', out', Some e)) ->
     e <> ErrorsNew "no nodes for you").
Proof.
  split.
  - intros init t r Hrun.
    destruct (readDir_returns _ _ _ _ _ _ Hrun)
      as [(? & _ & _ & ?)|(? & ? & ? & ? & _ & -> & _)]; [done|by eexists].
  - intros t h' out' e. rewrite dirTree_eq.
    destruct (readDir path (Some []) withFiles) as [t' [[nodes err]|msg]] eqn:Hb;
      [|by destruct msg].
    destruct (readDir_returns _ _ _ _ _ _ Hb)
      as [(e0 & _ & -> & ->)|(files & readErr & closeErr & built & _ & -> & -> & _)].
    + by intros [= _ _ _ <-].
    + destruct (first_error readErr closeErr) as [e1|] eqn:Herr.
      * intros [= _ _ _ <-]. rewrite /first_error in Herr.
        destruct readErr; [by injection Herr as <-|].
        destruct closeErr; [by injection Herr as <-|done].
      * destruct (empty_slice_valid h) as [Hv Hel].
        destruct (printDir_render growcap _ out ([] ++ built) _ Hv)
          as (h2 & -> & _).
        rewrite /with_heap. intros [= _ _ _ Herr'].
        by destruct (write_all_error _ _ _ Herr') as [msg ->].
Qed.

Lemma readDir_never_nil_witness :
  (forall init t r,
     readDir fs_example (Some init) true = (t, Return (r, None)) -> is_Some r) /\
  (forall t h' out' e,
     dirTree double_cap [] {| written := ""; room := 30 |} fs_example true
     = (t, Return (h', out', Some e)) ->
     e <> ErrorsNew "no nodes for you").
Proof.
  apply (readDir_never_nil double_cap [] {| written := ""; room := 30 |}
           fs_example true).
Defined.

(** Without a pointer the scan of an empty directory returns a nil pointer
    and no error: the check in [dirTree] is not dead for [readDir] as such,
    only for the call [dirTree] makes. *)
Example readDir_nil_pointer :
  readDir (OpenOk [] None None) None true
  = ([EvOpen; EvReaddir; EvClose], Return (None, None)).
Proof. reflexivity. Qed.

(** C6 (what the code does): the listing of the root fails after it has
    returned a subdirectory that cannot be opened; the build panics on the
    nil pointer of the subdirectory and the error of the listing does not
    reach the caller of [dirTree]. *)
Theorem dirTree_root_listing_error_panics :
  dirTree double_cap [] ("" : Buffer) fs_root_partial false
  = ([EvOpen; EvReaddir; EvOpenFailed; EvClose], Panic nil_dereference).
Proof. reflexivity. Qed.

(** ** The order of the children *)

Lemma StronglySorted_filter {A} (R : relation A) (P : A -> Prop)
    `{forall x, Decision (P x)} (l : list A) :
  StronglySorted R l -> StronglySorted R (filter P l).
Proof.
  induction 1 as [|x l Hs IH Hx]; [constructor|].
  rewrite filter_cons. destruct (decide (P x)); [|done].
  constructor; [done|]. rewrite Forall_forall in Hx.
  apply Forall_forall. intros y [_ Hy]%list_elem_of_filter. by apply Hx.
Qed.

Lemma node_of_name_kind (withFiles : bool) (l : list FileStat)
    (built : list Node) :
  Forall2 (node_of withFiles) l built ->
  (fun node => (node_name node, is_directory node)) <$> built
  = (fun info => (Name info, IsDir info)) <$> l.
Proof.
  induction 1 as [|info node l built Hnode _ IH]; [done|].
  rewrite !fmap_cons IH. f_equal.
  destruct node as [name children|name size]; simpl in *.
  - by destruct Hnode as (-> & -> & _).
  - by destruct Hnode as (-> & -> & _).
Qed.

(** The nodes that a scan returns are [listed] for its directory: by
    induction on the tree of directories, since the children of a directory
    node are what the scan of the subdirectory returned. *)
Lemma readDir_listed (path : Dir) :
  forall (withFiles : bool) (t : list Event) (children : list Node)
         (err : option error),
    readDir path (Some []) withFiles = (t, Return (Some children, err)) ->
    listed withFiles path children.
Proof.
  induction path as [e|files readErr closeErr IH] using Dir_ind';
    intros withFiles t children err Hrun.
  { by injection Hrun. }
  destruct (readDir_returns _ _ _ _ _ _ Hrun)
    as [(? & ? & _)|(? & ? & ? & built & [= <- <- <-] & [= ->] & _ & Hbuilt)];
    [done|].
  pose proof (node_of_name_kind _ _ _ Hbuilt) as Hnk.
  apply (listed_OpenOk withFiles files readErr closeErr
           (filter (fun i => kept withFiles i) (sort_Slice less_Name files))).
  - by rewrite (sort_Slice_perm Name files).
  - assert (node_name <$> built
            = Name <$> filter (fun i => kept withFiles i)
                         (sort_Slice less_Name files)) as ->.
    { apply (f_equal (fmap fst)) in Hnk.
      by rewrite -!list_fmap_compose in Hnk. }
    apply (Sorted_fmap _ (le_key Name)); [done|].
    apply StronglySorted_Sorted, StronglySorted_filter.
    apply Sorted_StronglySorted; [apply _|].
    apply (sort_Slice_sorted Name).
  - remember (filter (fun i => kept withFiles i) (sort_Slice less_Name files))
      as entries eqn:Hentries.
    assert (Forall (fun info => info ∈ files) entries) as Hin.
    { subst entries. apply Forall_forall.
      intros info [_ Hi]%list_elem_of_filter.
      by rewrite -(sort_Slice_perm Name files). }
    clear Hentries Hrun Hnk. rewrite Forall_forall in IH.
    induction Hbuilt as [|info node l built' Hnode _ IHb]; [constructor|].
    apply Forall_cons in Hin as [Hi Hin].
    constructor; [|by apply IHb].
    destruct node as [name children|name size]; simpl in Hnode.
    + destruct Hnode as (Hd & -> & t' & err' & Hsub).
      apply listed_DirInfo; [done|]. by apply (IH info Hi withFiles t' children err').
    + destruct Hnode as (Hd & -> & ->). by apply listed_FileInfo.
Qed.

(** What [listed] says of the nodes of one directory: their names are in
    ascending order, and their names and kinds are those of the kept
    entries. *)
Lemma listed_names_kinds (withFiles : bool) (files : list FileStat)
    (readErr closeErr : option string) (nodes : list Node) :
  listed withFiles (OpenOk files readErr closeErr) nodes ->
  Sorted String.le (node_name <$> nodes) /\
  (fun node => (node_name node, is_directory node)) <$> nodes
  ≡ₚ (fun info => (Name info, IsDir info))
       <$> filter (fun info => kept withFiles info) files.
Proof.
  intros Hl. inversion Hl as [? ? ? entries ? Hperm Hsorted Hnodes]; subst.
  split; [done|]. rewrite -Hperm. clear Hl Hperm Hsorted.
  induction Hnodes as [|info node l nodes' Hnode _ IHn]; [done|].
  rewrite !fmap_cons IHn.
  by destruct Hnode as [info' Hd|info' children Hd _]; rewrite /= Hd.
Qed.

(** And of the nodes below: a tree whose subdirectory has its children out
    of order is not [listed], whatever the order of the root. *)
Example listed_every_depth :
  ~ listed true
      (OpenOk [MkStat "docs" 4096 true
                 (OpenOk [MkStat "a.txt" 1 false regular_file;
                          MkStat "b.txt" 2 false regular_file]
                    None None)]
         None None)
      [DirInfo "docs" [FileInfo "b.txt" 2; FileInfo "a.txt" 1]].
Proof.
  inversion 1 as [? ? ? entries ? Hperm _ Hnodes]; subst.
  rewrite filter_cons_True // filter_nil in Hperm.
  apply Permutation_singleton_r in Hperm as ->.
  apply Forall2_cons_1 in Hnodes as [Hdocs _].
  inversion Hdocs as [|? ? _ Hsub]; subst.
  inversion Hsub as [? ? ? ? ? _ Hsorted _]; subst.
  apply Sorted_inv in Hsorted as [_ Hhd].
  apply HdRel_inv in Hhd. by vm_compute in Hhd.
Qed.

(** C2: for every directory that a scan reads, the directory it is given
    and the subdirectories at every depth, the children built for it are
    the entries of its listing that are kept (the directories, and the
    files when files are included), each with the kind of its entry, in
    ascending order of their names as byte strings, directories and files
    mixed; and [printDir] makes the writes for the nodes one node after the
    other in that order, those for the children of a directory, in their
    order, between its line and the line of the node that follows it. *)
Theorem readDir_children_sorted (path : Dir) (withFiles : bool)
    (t : list Event) (children : list Node) (err : option error) :
  readDir path (Some []) withFiles = (t, Return (Some children, err)) ->
  listed withFiles path children /\
  forall (growcap : nat -> nat -> nat) (W : Type) (writer : Writer W)
         (h : Heap) (out : W) (s : Slice),
    valid_slice h s ->
    exists h',
      printDir growcap h out children s =
        with_heap h'
          (write_all out
             (concat (zip_with (node_writes (elems h s)) children
                        (last_flags (length children))))).
Proof.
  intros Hrun. split.
  - by apply (readDir_listed path withFiles t children err).
  - intros growcap W writer h out s Hv.
    destruct (printDir_render growcap h out children s Hv) as (h' & -> & _).
    by exists h'.
Qed.

Lemma readDir_children_sorted_witness :
  listed true fs_nested nested_nodes /\
  forall (growcap : nat -> nat -> nat) (W : Type) (writer : Writer W)
         (h : Heap) (out : W) (s : Slice),
    valid_slice h s ->
    exists h',
      printDir growcap h out nested_nodes s =
        with_heap h'
          (write_all out
             (concat (zip_with (node_writes (elems h s)) nested_nodes
                        (last_flags (length nested_nodes))))).
Proof.
  apply (readDir_children_sorted fs_nested true
           [EvOpen; EvReaddir; EvOpen; EvReaddir;
            EvOpen; EvReaddir; EvClose; EvClose; EvClose]
           nested_nodes None).
  reflexivity.
Defined.

(** ** The order of the listing does not matter *)

Lemma unique_names_OpenOk (files : list FileStat) (readErr closeErr : option string) :
  unique_names (OpenOk files readErr closeErr) <->
  NoDup (Name <$> files) /\
  Forall (fun info => unique_names (at_path info)) files.
Proof.
  cbn [unique_names]. apply and_iff_compat_l.
  induction files as [|info files IH]; simpl.
  - split; [constructor|done].
  - rewrite Forall_cons IH. done.
Qed.

Lemma same_dir_refl (d : Dir) : same_dir d d.
Proof.
  induction d as [e|files readErr closeErr IH] using Dir_ind'; [constructor|].
  apply (same_OpenOk files files files); [|done].
  induction IH as [|[n sz dir t] files Ht _ IHfiles]; constructor; [|done].
  by constructor.
Qed.

Lemma readDir_loop_view (withFiles : bool) (l1 l2 : list FileStat)
    (nodes : Nodes_ptr) :
  view withFiles <$> l1 = view withFiles <$> l2 ->
  readDir_loop l1 nodes withFiles = readDir_loop l2 nodes withFiles.
Proof.
  revert l2 nodes; induction l1 as [|i1 l1 IH]; intros [|i2 l2] nodes Hv;
    try done.
  rewrite !fmap_cons in Hv. injection Hv as Hn Hs Hd Hsub Hrest.
  cbn [readDir_loop]. rewrite Hn Hs Hd Hsub.
  destruct (negb (IsDir i2 || withFiles)); [by apply IH|].
  destruct (IsDir i2).
  - destruct (readDir (at_path i2) (Some []) withFiles)
      as [t [[[c|] err]|msg]]; simpl; try done.
    destruct nodes as [l|]; [|done]. by rewrite (IH l2).
  - simpl. destruct nodes as [l|]; [|done]. by rewrite (IH l2).
Qed.

Lemma readDir_same (d1 : Dir) :
  forall d2 nodes withFiles,
    same_dir d1 d2 -> unique_names d1 ->
    readDir d1 nodes withFiles = readDir d2 nodes withFiles.
Proof.
  induction d1 as [e|files1 readErr closeErr IH] using Dir_ind';
    intros d2 nodes withFiles Hsame Huniq.
  { by inversion Hsame. }
  inversion Hsame as [|? files2 files2' ? ? Hstat Hperm]; subst.
  apply unique_names_OpenOk in Huniq as [Hnd Hsub].
  rewrite !readDir_OpenOk.
  assert (view withFiles <$> files1 = view withFiles <$> files2') as Hview.
  { clear Hperm Hnd Hsame.
    induction Hstat as [|i1 i2 l1 l2 Hi _ IHl]; [done|].
    apply Forall_cons in IH as [IHi IH]. apply Forall_cons in Hsub as [Hui Hsub].
    rewrite !fmap_cons IHl //. f_equal.
    destruct Hi as [n sz dir t1 t2 Ht]. rewrite /view /=. f_equal.
    by apply IHi. }
  assert (readDir_loop (sort_Slice less_Name files1) nodes withFiles
          = readDir_loop (sort_Slice less_Name files2) nodes withFiles) as ->;
    [|done].
  apply readDir_loop_view.
  rewrite -!(sort_Slice_map (view withFiles) less_Name (less_key view_name)) //.
  apply sort_Slice_unique.
  - by rewrite -list_fmap_compose.
  - by rewrite Hview Hperm.
Qed.

(** C8: two runs on trees that hold the same directories with the same
    entries, whose names are pairwise distinct in every directory, make the
    same calls on the filesystem and leave the same output and the same
    error (or panic alike), in whatever order the listings are returned and
    whatever the state of the memory at the start of each run. *)
Theorem dirTree_order_independent (growcap1 growcap2 : nat -> nat -> nat)
    {W : Type} `{Writer W} (h1 h2 : Heap) (out : W) (d1 d2 : Dir)
    (withFiles : bool) :
  same_dir d1 d2 -> unique_names d1 ->
  observable (dirTree growcap1 h1 out d1 withFiles)
  = observable (dirTree growcap2 h2 out d2 withFiles).
Proof.
  intros Hsame Huniq. rewrite !dirTree_eq.
  rewrite -(readDir_same d1 d2 (Some []) withFiles Hsame Huniq).
  destruct (readDir d1 (Some []) withFiles) as [t [[[nodes|] [e|]]|msg]];
    try done.
  destruct (empty_slice_valid h1) as [Hv1 Hel1].
  destruct (empty_slice_valid h2) as [Hv2 Hel2].
  destruct (printDir_render growcap1 _ out nodes _ Hv1) as (h1' & -> & _).
  destruct (printDir_render growcap2 _ out nodes _ Hv2) as (h2' & -> & _).
  by rewrite Hel1 Hel2.
Qed.

Lemma dirTree_order_independent_witness :
  observable (dirTree double_cap [] ("" : Buffer) fs_example true)
  = observable (dirTree (fun _ needed => needed) [["x"]] ("" : Buffer)
                  fs_example_reordered true).
Proof.
  apply (dirTree_order_independent double_cap (fun _ needed => needed)
           [] [["x"]] ("" : Buffer) fs_example fs_example_reordered true).
  - apply (same_OpenOk _ _
             [MkStat "main.go" 0 false regular_file;
              MkStat "docs" 4096 true
                (OpenOk [MkStat "readme.txt" 120 false regular_file] None None)]).
    + repeat constructor; apply same_dir_refl.
    + apply Permutation_swap.
  - simpl. repeat split; apply (bool_decide_unpack _); vm_compute; exact I.
Defined.

(** ** Further properties of a run *)

Lemma dirTree_root_error_witness :
  (forall e,
     dirTree double_cap [] ("" : Buffer) (OpenError e) true
     = ([EvOpenFailed], Return ([], "", Some (OSError e)))) /\
  (forall r,
     (dirTree double_cap [] ("" : Buffer)
        (OpenOk [MkStat "main.go" 0 false regular_file]
           (Some "input/output error") None) true).2
     = Return r ->
     r = ([], "", Some (OSError "input/output error"))).
Proof.
  destruct (dirTree_root_error double_cap [] ("" : Buffer) true)
    as [Hopen Hlist].
  split; [exact Hopen|].
  exact (Hlist [MkStat "main.go" 0 false regular_file]
           "input/output error" None).
Defined.

Lemma readDir_loop_listing_error_witness :
  let info :=
    MkStat "broken" 4096 true
      (OpenOk [MkStat "a.txt" 7 false regular_file]
         (Some "input/output error") None) in
  Some (OSError "input/output error") = Some (OSError "input/output error") /\
  readDir_loop [info] (Some []) true =
    let '(t', r) :=
      readDir_loop [] (Some ([] ++ [DirInfo (Name info) [FileInfo "a.txt" 7]]))
        true in
    ([EvOpen; EvReaddir; EvClose] ++ t', r).
Proof.
  apply (readDir_loop_listing_error
           (MkStat "broken" 4096 true
              (OpenOk [MkStat "a.txt" 7 false regular_file]
                 (Some "input/output error") None))
           [] [] true [MkStat "a.txt" 7 false regular_file]
           "input/output error" None);
    reflexivity.
Defined.

(** An empty root: the calls of one scan, nothing written, no error. *)
Theorem dirTree_empty_root (growcap : nat -> nat -> nat) {W : Type} `{Writer W}
    (h : Heap) (out : W) (closeErr : option string) (isPrintFiles : bool) :
  observable (dirTree growcap h out (OpenOk [] None closeErr) isPrintFiles)
  = ([EvOpen; EvReaddir; EvClose],
     Return (out, OSError <$> closeErr)).
Proof.
  destruct closeErr as [e|]; [by rewrite dirTree_eq|].
  by rewrite (dirTree_render growcap h out _ _ [EvOpen; EvReaddir; EvClose] []).
Qed.

(** The example of the specification with files included, for every growth
    policy of [append] and every heap at the start. *)
Theorem dirTree_example_files (growcap : nat -> nat -> nat) (h : Heap) :
  observable (dirTree growcap h ("" : Buffer) fs_example true)
  = ([EvOpen; EvReaddir; EvOpen; EvReaddir; EvClose; EvClose],
     Return ("├───docs" +:+ newline +:+
             "│" +:+ tab +:+ "└───readme.txt (120b)" +:+ newline +:+
             "└───main.go (empty)" +:+ newline, None)).
Proof.
  rewrite (dirTree_render growcap h "" fs_example true
             [EvOpen; EvReaddir; EvOpen; EvReaddir; EvClose; EvClose]
             example_nodes); [reflexivity|].
  by rewrite write_all_Buffer.
Qed.

(** Without files the example shows the directory alone, as the last node
    of its sequence. *)
Theorem dirTree_example_directories (growcap : nat -> nat -> nat) (h : Heap) :
  observable (dirTree growcap h ("" : Buffer) fs_example false)
  = ([EvOpen; EvReaddir; EvOpen; EvReaddir; EvClose; EvClose],
     Return ("└───docs" +:+ newline, None)).
Proof.
  rewrite (dirTree_render growcap h "" fs_example false
             [EvOpen; EvReaddir; EvOpen; EvReaddir; EvClose; EvClose]
             [DirInfo "docs" []]); [reflexivity|].
  by rewrite write_all_Buffer.
Qed.

(** A subdirectory listed out of order: its lines come in the order of the
    names, the directory [api] between the two files. *)
Example dirTree_nested_order (growcap : nat -> nat -> nat) (h : Heap) :
  observable (dirTree growcap h ("" : Buffer) fs_nested true)
  = ([EvOpen; EvReaddir; EvOpen; EvReaddir;
      EvOpen; EvReaddir; EvClose; EvClose; EvClose],
     Return ("├───docs" +:+ newline +:+
             "│" +:+ tab +:+ "├───Makefile (7b)" +:+ newline +:+
             "│" +:+ tab +:+ "├───api" +:+ newline +:+
             "│" +:+ tab +:+ "└───readme.txt (120b)" +:+ newline +:+
             "└───main.go (empty)" +:+ newline, None)).
Proof.
  rewrite (dirTree_render growcap h "" fs_nested true
             [EvOpen; EvReaddir; EvOpen; EvReaddir;
              EvOpen; EvReaddir; EvClose; EvClose; EvClose]
             nested_nodes); [reflexivity|].
  by rewrite write_all_Buffer.
Qed.

(** A write that fails ends the rendering: [printDir] returns the error of
    that write, and the writer is as the writes before it and the failed
    write have left it. *)
Theorem printDir_write_error (growcap : nat -> nat -> nat) {W : Type}
    `{Writer W} (h : Heap) (out out1 out2 : W) (nodes : list Node) (s : Slice)
    (done : list string) (w : string) (rest : list string) (msg : string) :
  valid_slice h s ->
  render (elems h s) nodes = done ++ w :: rest ->
  write_all out done = (out1, None) ->
  Write out1 w = (out2, Some msg) ->
  exists h',
    printDir growcap h out nodes s = (h', out2, Some (WriterError msg)).
Proof.
  intros Hv Hrender Hdone Hw.
  destruct (printDir_render growcap h out nodes s Hv) as (h' & -> & _).
  exists h'. rewrite Hrender write_all_app Hdone. cbn [fst snd write_all].
  by rewrite /Fprintf Hw.
Qed.

Lemma printDir_write_error_witness :
  exists h',
    printDir double_cap [[]] {| written := ""; room := 30 |} example_nodes
      {| ptr := 0; len := 0; cap := 0 |}
    = (h', {| written := "├───docs" +:+ newline +:+ "│" +:+ tab; room := 9 |},
       Some (WriterError "no space left on device")).
Proof.
  apply (printDir_write_error double_cap [[]] {| written := ""; room := 30 |}
           {| written := "├───docs" +:+ newline +:+ "│" +:+ tab; room := 9 |}
           {| written := "├───docs" +:+ newline +:+ "│" +:+ tab; room := 9 |}
           example_nodes {| ptr := 0; len := 0; cap := 0 |}
           [""; "├───docs" +:+ newline; "│" +:+ tab]
           ("└───readme.txt (120b)" +:+ newline)
           [""; "└───main.go (empty)" +:+ newline]
           "no space left on device").
  - exists []. simpl. split_and!; [reflexivity|lia|lia].
  - reflexivity.
  - reflexivity.
  - reflexivity.
Defined.

(** With a capacity that doubles, the prefixes of the children of [d1] and
    of [d2] are made in place in one array, the fourth of the heap: its last
    cell held the bar and tab of [d1] and holds the tab of [d2] at the end.
    The lines are those of [render] all the same. *)
Example printDir_shares_array :
  printDir double_cap [[]] ("" : Buffer) deep_nodes
    {| ptr := 0; len := 0; cap := 0 |}
  = ([[]; [tab]; [tab; tab]; [tab; tab; "│" +:+ tab; tab]; [tab; tab; tab; ""]],
     join (render [] deep_nodes), None).
Proof. vm_compute. reflexivity. Qed.

Example FormatInt_120 : FormatInt 120 10 = "120".
Proof. reflexivity. Qed.

Example FormatInt_neg : FormatInt (-45) 10 = "-45".
Proof. reflexivity. Qed.

Example FormatInt_max : FormatInt (2 ^ 63 - 1) 10 = "9223372036854775807".
Proof. vm_compute. reflexivity. Qed.

Example FileInfo_String_120 : FileInfo_String "readme.txt" 120 = "readme.txt (120b)".
Proof. reflexivity. Qed.

Example FileInfo_String_0 : FileInfo_String "main.go" 0 = "main.go (empty)".
Proof. reflexivity. Qed.

(** * Further properties *)

(** ** main *)

(** With a number of arguments other than one or two the program panics
    with the usage message; it has made no call on the filesystem and has
    written nothing. *)
Theorem main_usage (growcap : nat -> nat -> nat) {W : Type} `{Writer W}
    (h : Heap) (Stdout : W) (fs : string -> Dir) (Args : list string) :
  length Args <> 2%nat -> length Args <> 3%nat ->
  main growcap h Stdout fs Args = ([], Stdout, Some usage).
Proof.
  intros H2 H3. rewrite /main.
  by rewrite bool_decide_eq_false_2 // bool_decide_eq_false_2.
Qed.

Lemma main_usage_witness :
  main double_cap [] ("" : Buffer) (fun _ => fs_example) ["tree"]
  = ([], "", Some usage).
Proof.
  apply (main_usage double_cap [] ("" : Buffer) (fun _ => fs_example) ["tree"]);
    simpl; lia.
Defined.

(** A second argument that is not "-f" changes nothing: the run is that of
    the program without a second argument, whatever the program is called. *)
Theorem main_flag_ignored (growcap : nat -> nat -> nat) {W : Type} `{Writer W}
    (h : Heap) (Stdout : W) (fs : string -> Dir) (prog prog' path x : string) :
  x <> "-f" ->
  main growcap h Stdout fs [prog; path; x]
  = main growcap h Stdout fs [prog'; path].
Proof.
  intros Hx. rewrite /main /=.
  by rewrite (bool_decide_eq_false_2 (Some x = Some "-f")); [congruence|].
Qed.

Lemma main_flag_ignored_witness :
  main double_cap [] ("" : Buffer) (fun _ => fs_example) ["tree"; "."; "-x"]
  = main double_cap [] ("" : Buffer) (fun _ => fs_example) ["go"; "."].
Proof.
  apply (main_flag_ignored double_cap [] ("" : Buffer) (fun _ => fs_example)
           "tree" "go" "." "-x").
  discriminate.
Defined.

(** A run that ends without a panic was given one or two arguments, its
    build returned the nodes of the root without an error, files included
    exactly when the second argument is "-f", and every write of the tree
    of these nodes has succeeded. *)
Theorem main_normal_exit (growcap : nat -> nat -> nat) {W : Type} `{Writer W}
    (h : Heap) (Stdout out' : W) (fs : string -> Dir) (Args : list string)
    (t : list Event) :
  main growcap h Stdout fs Args = (t, out', None) ->
  (length Args = 2%nat \/ length Args = 3%nat) /\
  exists path nodes,
    Args !! 1%nat = Some path /\
    readDir (fs path) (Some []) (bool_decide (Args !! 2%nat = Some "-f"))
    = (t, Return (Some nodes, None)) /\
    write_all Stdout (render [] nodes) = (out', None).
Proof.
  intros Hmain. rewrite /main in Hmain.
  assert (length Args = 2%nat \/ length Args = 3%nat) as Hlen.
  { destruct (decide (length Args = 2%nat)) as [?|H2]; [by left|].
    destruct (decide (length Args = 3%nat)) as [?|H3]; [by right|].
    by rewrite (bool_decide_eq_false_2 _ H2) (bool_decide_eq_false_2 _ H3)
      in Hmain. }
  split; [done|].
  assert (negb (bool_decide (length Args = 2%nat)
                || bool_decide (length Args = 3%nat)) = false) as Hc.
  { destruct Hlen as [Hl|Hl]; rewrite Hl; by vm_compute. }
  rewrite Hc in Hmain.
  destruct (Args !! 1%nat) as [path|]; [|done].
  assert (bool_decide (length Args = 3%nat)
          && bool_decide (Args !! 2%nat = Some "-f")
          = bool_decide (Args !! 2%nat = Some "-f")) as Hflag.
  { destruct Hlen as [Hl|Hl].
    - rewrite (bool_decide_eq_false_2 (length Args = 3%nat)); [lia|].
      rewrite (lookup_ge_None_2 Args 2); [lia|].
      by rewrite bool_decide_eq_false_2.
    - by rewrite (bool_decide_eq_true_2 (length Args = 3%nat)). }
  cbn zeta in Hmain. rewrite Hflag dirTree_eq in Hmain.
  destruct (readDir (fs path) (Some []) _) as [t' [[[nodes|] [e|]]|msg]] eqn:Hb;
    try done.
  destruct (empty_slice_valid h) as [Hv Hel].
  destruct (printDir_render growcap _ Stdout nodes _ Hv) as (h' & Hp & _).
  rewrite Hp Hel /with_heap in Hmain.
  destruct (write_all Stdout (render [] nodes)) as [o [e|]] eqn:Hw;
    simpl in Hmain; [done|].
  injection Hmain as <- <-. by exists path, nodes.
Qed.

Lemma main_normal_exit_witness :
  (length ["tree"; "."; "-f"] = 2%nat \/ length ["tree"; "."; "-f"] = 3%nat) /\
  exists path nodes,
    ["tree"; "."; "-f"] !! 1%nat = Some path /\
    readDir fs_example (Some [])
      (bool_decide (["tree"; "."; "-f"] !! 2%nat = Some "-f"))
    = ([EvOpen; EvReaddir; EvOpen; EvReaddir; EvClose; EvClose],
       Return (Some nodes, None)) /\
    write_all ("" : Buffer) (render [] nodes)
    = (join (render [] example_nodes), None).
Proof.
  apply (main_normal_exit double_cap [] ("" : Buffer)
           (join (render [] example_nodes)) (fun _ => fs_example)
           ["tree"; "."; "-f"]
           [EvOpen; EvReaddir; EvOpen; EvReaddir; EvClose; EvClose]).
  vm_compute. reflexivity.
Defined.

(** ** readDir appends *)

Lemma readDir_loop_appends (files : list FileStat) (init acc : list Node)
    (withFiles : bool) :
  readDir_loop files (Some (init ++ acc)) withFiles =
    ((readDir_loop files (Some acc) withFiles).1,
     match (readDir_loop files (Some acc) withFiles).2 with
     | Return p => Return (app init <$> p)
     | Panic msg => Panic msg
     end).
Proof.
  revert acc; induction files as [|info rest IH]; intros acc; [done|].
  destruct (IsDir info) eqn:Hd.
  - rewrite !readDir_loop_dir //.
    destruct (readDir (at_path info) (Some []) withFiles)
      as [t [[[c|] err]|msg]]; try done.
    rewrite -app_assoc IH.
    by destruct (readDir_loop rest (Some (acc ++ _)) withFiles).
  - destruct withFiles.
    + by rewrite !readDir_loop_file // -app_assoc IH.
    + by rewrite !readDir_loop_skip // IH.
Qed.

(** The nodes that are in the slice given to [readDir] stay in front of the
    result, in their order; the nodes that the scan appends, the calls it
    makes, its error and whether it panics do not depend on them. *)
Theorem readDir_appends (path : Dir) (init : list Node) (withFiles : bool) :
  readDir path (Some init) withFiles =
    ((readDir path (Some []) withFiles).1,
     match (readDir path (Some []) withFiles).2 with
     | Return (p, err) => Return (app init <$> p, err)
     | Panic msg => Panic msg
     end).
Proof.
  destruct path as [e|files readErr closeErr]; [done|].
  rewrite !readDir_OpenOk. cbn zeta.
  pose proof (readDir_loop_appends (sort_Slice less_Name files) init []
                withFiles) as Hloop.
  rewrite app_nil_r in Hloop. rewrite Hloop. cbn [fst snd].
  by destruct (readDir_loop _ (Some []) withFiles).2.
Qed.

(** ** Directories only *)

(** Without files a scan that returns has built no file node, at any depth,
    as long as there was none in the slice it was given. *)
Theorem readDir_only_dirs (path : Dir) :
  forall (init nodes : list Node) (t : list Event) (err : option error),
    readDir path (Some init) false = (t, Return (Some nodes, err)) ->
    forallb only_dirs init = true ->
    forallb only_dirs nodes = true.
Proof.
  induction path as [e|files readErr closeErr IH] using Dir_ind';
    intros init nodes t err Hrun Hinit.
  { by injection Hrun. }
  destruct (readDir_returns _ _ _ _ _ _ Hrun)
    as [(? & ? & _)|(? & ? & ? & built & [= <- <- <-] & [= ->] & _ & Hbuilt)];
    [done|].
  rewrite forallb_app Hinit /=.
  remember (filter (fun i => kept false i) (sort_Slice less_Name files))
    as dirs eqn:Hdirs.
  assert (Forall (fun info => info ∈ files /\ IsDir info = true) dirs) as Hin.
  { subst dirs. apply Forall_forall. intros info [Hk Hi]%list_elem_of_filter.
    split; [by rewrite -(sort_Slice_perm Name files)|].
    rewrite /kept orb_false_r in Hk. by destruct (IsDir info). }
  clear Hdirs Hrun. rewrite Forall_forall in IH.
  induction Hbuilt as [|info node l built' Hnode _ IHb]; [done|].
  apply Forall_cons in Hin as [[Hi Hd] Hin]. cbn [forallb].
  rewrite (IHb Hin) andb_true_r.
  destruct node as [name children|name size]; simpl in Hnode.
  - destruct Hnode as (_ & _ & t' & err' & Hsub). cbn [only_dirs].
    by apply (IH info Hi [] children t' err' Hsub).
  - destruct Hnode as (Hd' & _). congruence.
Qed.

Lemma readDir_only_dirs_witness :
  forallb only_dirs [DirInfo "a" []; DirInfo "c" []] = true.
Proof.
  apply (readDir_only_dirs fs_mixed [] [DirInfo "a" []; DirInfo "c" []]
           [EvOpen; EvReaddir; EvOpen; EvReaddir; EvClose;
            EvOpen; EvReaddir; EvClose; EvClose] None);
    reflexivity.
Defined.

(** ** The calls of a scan do not depend on the mode *)

Lemma readDir_loop_modes (files : list FileStat) :
  Forall (fun info =>
            ends_alike (readDir (at_path info) (Some []) true)
                       (readDir (at_path info) (Some []) false)) files ->
  forall a b,
    (readDir_loop files (Some a) true).1 = (readDir_loop files (Some b) false).1 /\
    match (readDir_loop files (Some a) true).2,
          (readDir_loop files (Some b) false).2 with
    | Return p1, Return p2 => is_Some p1 /\ is_Some p2
    | Panic m1, Panic m2 => m1 = m2
    | _, _ => False
    end.
Proof.
  induction 1 as [|info rest Hinfo _ IH]; intros a b.
  { simpl. by split; [|split; eexists]. }
  destruct (IsDir info) eqn:Hd.
  - rewrite !readDir_loop_dir //. destruct Hinfo as [Ht Hend].
    destruct (readDir (at_path info) (Some []) true) as [t1 [[p1 e1]|m1]];
      destruct (readDir (at_path info) (Some []) false) as [t2 [[p2 e2]|m2]];
      simpl in *; try done; subst t2.
    destruct Hend as [_ Hnil].
    destruct p1 as [c1|], p2 as [c2|]; simpl;
      [|by destruct Hnil as [_ Hn]; specialize (Hn eq_refl)
       |by destruct Hnil as [Hn _]; specialize (Hn eq_refl)|done].
    specialize (IH (a ++ [DirInfo (Name info) c1])
                   (b ++ [DirInfo (Name info) c2])).
    destruct (readDir_loop rest (Some (a ++ _)) true) as [u1 r1];
      destruct (readDir_loop rest (Some (b ++ _)) false) as [u2 r2].
    simpl in *. destruct IH as [-> IH]. done.
  - rewrite readDir_loop_file // readDir_loop_skip //.
Qed.

(** Including the files costs no call: a scan makes the same calls on the
    filesystem with and without files, and it ends alike: with one panic, or
    with one error and a pointer that is nil in both modes or in neither. *)
Theorem readDir_modes_alike (path : Dir) (a b : list Node) :
  ends_alike (readDir path (Some a) true) (readDir path (Some b) false).
Proof.
  revert a b.
  induction path as [e|files readErr closeErr IH] using Dir_ind'; intros a b.
  { by split. }
  rewrite !readDir_OpenOk /ends_alike. cbn [fst snd].
  destruct (readDir_loop_modes (sort_Slice less_Name files)) with (a := a) (b := b)
    as [Ht Hend].
  { apply Forall_forall. intros info Hin. rewrite Forall_forall in IH.
    apply IH. by rewrite -(sort_Slice_perm Name files). }
  rewrite Ht. split; [done|].
  destruct (readDir_loop _ (Some a) true).2 as [p1|m1];
    destruct (readDir_loop _ (Some b) false).2 as [p2|m2]; try done.
  destruct Hend as [[? ->] [? ->]]. by split.
Qed.

(** ** How many calls a scan makes *)

Lemma calls_app (e : Event) (t1 t2 : list Event) :
  calls e (t1 ++ t2) = (calls e t1 + calls e t2)%nat.
Proof. by rewrite /calls filter_app length_app. Qed.

(** The directory entries of a listing, with those below them. *)
Lemma dir_entries_OpenOk (files : list FileStat) (readErr closeErr : option string) :
  dir_entries (OpenOk files readErr closeErr) =
    list_sum ((fun info =>
                 if IsDir info then S (dir_entries (at_path info)) else 0%nat)
                <$> files).
Proof. done. Qed.

Lemma readDir_loop_dir_nil info rest withFiles :
  IsDir info = true ->
  exists msg,
    readDir_loop (info :: rest) None withFiles
    = ((readDir (at_path info) (Some []) withFiles).1, Panic msg).
Proof.
  intros Hd. rewrite /= Hd /=.
  destruct (readDir (at_path info) (Some []) withFiles)
    as [t [[[c|] err]|msg]]; simpl; rewrite ?app_nil_r; by eexists.
Qed.

Lemma list_sum_cons (x : nat) (l : list nat) :
  list_sum (x :: l) = (x + list_sum l)%nat.
Proof. done. Qed.

Lemma list_sum_fmap_perm {A} (f : A -> nat) (l1 l2 : list A) :
  l1 ≡ₚ l2 -> list_sum (f <$> l1) = list_sum (f <$> l2).
Proof.
  induction 1 as [|x l1 l2 _ IH|x y l|l1 l2 l3 _ IH1 _ IH2];
    rewrite ?fmap_cons ?list_sum_cons; lia.
Qed.

Lemma readDir_loop_calls (files : list FileStat) :
  Forall (fun info => forall nodes withFiles,
            let r := readDir (at_path info) nodes withFiles in
            calls EvReaddir r.1 = calls EvOpen r.1 /\
            calls EvClose r.1 = calls EvOpen r.1 /\
            (calls EvOpen r.1 + calls EvOpenFailed r.1
             <= 1 + dir_entries (at_path info))%nat /\
            (forall x, r.2 = Return x ->
               (calls EvOpen r.1 + calls EvOpenFailed r.1
                = 1 + dir_entries (at_path info))%nat))
    files ->
  forall nodes withFiles,
    let r := readDir_loop files nodes withFiles in
    let n := list_sum ((fun info =>
                          if IsDir info then S (dir_entries (at_path info))
                          else 0%nat) <$> files) in
    calls EvReaddir r.1 = calls EvOpen r.1 /\
    calls EvClose r.1 = calls EvOpen r.1 /\
    (calls EvOpen r.1 + calls EvOpenFailed r.1 <= n)%nat /\
    (forall x, r.2 = Return x ->
       (calls EvOpen r.1 + calls EvOpenFailed r.1 = n)%nat).
Proof.
  induction 1 as [|info rest Hinfo _ IH]; intros nodes withFiles.
  { rewrite /calls /=. rewrite ?list_sum_cons; split_and!; [done|done|lia|done]. }
  cbn zeta. rewrite fmap_cons.
  destruct (IsDir info) eqn:Hd.
  - specialize (Hinfo (Some []) withFiles). cbn zeta in Hinfo.
    destruct Hinfo as (Hr & Hc & Hle & Heq).
    destruct nodes as [l|].
    + rewrite readDir_loop_dir //.
      destruct (readDir (at_path info) (Some []) withFiles)
        as [t [[[c|] err]|msg]]; cbn [fst snd] in *.
      * specialize (IH (Some (l ++ [DirInfo (Name info) c])) withFiles).
        cbn zeta in IH. destruct IH as (Hr' & Hc' & Hle' & Heq').
        destruct (readDir_loop rest _ withFiles) as [t' r']; cbn [fst snd] in *.
        rewrite !calls_app. specialize (Heq _ eq_refl).
        rewrite ?list_sum_cons; split_and!; [lia..|]. intros x Hx. specialize (Heq' _ Hx). lia.
      * rewrite ?list_sum_cons; split_and!; [done|done|lia|done].
      * rewrite ?list_sum_cons; split_and!; [done|done|lia|done].
    + destruct (readDir_loop_dir_nil info rest withFiles Hd) as [msg ->].
      cbn [fst snd]. rewrite list_sum_cons. split_and!; [done|done|lia|done].
  - rewrite list_sum_cons. cbn [Nat.add]. destruct withFiles.
    + destruct nodes as [l|].
      * rewrite (readDir_loop_file _ _ _ Hd). apply IH.
      * rewrite /= Hd /=. rewrite /calls /=. split_and!; [done|done|lia|done].
    + rewrite (readDir_loop_skip _ _ _ Hd). apply IH.
Qed.

(** A scan lists and closes every directory that it opens, once each.  It
    tries to open the directory it is given and, at most once each, the
    directory entries of the listings below it, and nothing else; a scan
    that returns has tried each of them exactly once. *)
Theorem readDir_calls (path : Dir) (nodes : Nodes_ptr) (withFiles : bool) :
  let r := readDir path nodes withFiles in
  calls EvReaddir r.1 = calls EvOpen r.1 /\
  calls EvClose r.1 = calls EvOpen r.1 /\
  (calls EvOpen r.1 + calls EvOpenFailed r.1 <= 1 + dir_entries path)%nat /\
  (forall x, r.2 = Return x ->
     (calls EvOpen r.1 + calls EvOpenFailed r.1 = 1 + dir_entries path)%nat).
Proof.
  revert nodes withFiles.
  induction path as [e|files readErr closeErr IH] using Dir_ind';
    intros nodes withFiles.
  { rewrite /calls /=. split_and!; [done|done|lia|done]. }
  cbn zeta. rewrite readDir_OpenOk. cbn [fst snd].
  destruct (readDir_loop_calls (sort_Slice less_Name files))
    with (nodes := nodes) (withFiles := withFiles) as (Hr & Hc & Hle & Heq).
  { apply Forall_forall. intros info Hin. rewrite Forall_forall in IH.
    apply IH. by rewrite -(sort_Slice_perm Name files). }
  rewrite (list_sum_fmap_perm _ _ files (sort_Slice_perm Name files))
    -(dir_entries_OpenOk files readErr closeErr) in Hle, Heq.
  change (EvOpen :: EvReaddir :: ?t) with ([EvOpen; EvReaddir] ++ t).
  rewrite !calls_app. cbn [calls filter length].
  change (calls EvReaddir [EvOpen; EvReaddir]) with 1%nat.
  change (calls EvOpen [EvOpen; EvReaddir]) with 1%nat.
  change (calls EvClose [EvOpen; EvReaddir]) with 0%nat.
  change (calls EvOpenFailed [EvOpen; EvReaddir]) with 0%nat.
  change (calls EvReaddir [EvClose]) with 0%nat.
  change (calls EvOpen [EvClose]) with 0%nat.
  change (calls EvClose [EvClose]) with 1%nat.
  change (calls EvOpenFailed [EvClose]) with 0%nat.
  split_and!; [lia..|].
  intros x Hx.
  destruct (readDir_loop _ nodes withFiles).2 as [p|msg] eqn:Hloop; [|done].
  specialize (Heq _ eq_refl). lia.
Qed.

Lemma readDir_calls_witness :
  let r := readDir fs_mixed (Some []) true in
  calls EvReaddir r.1 = calls EvOpen r.1 /\
  calls EvClose r.1 = calls EvOpen r.1 /\
  (calls EvOpen r.1 + calls EvOpenFailed r.1 <= 1 + dir_entries fs_mixed)%nat /\
  (forall x, r.2 = Return x ->
     (calls EvOpen r.1 + calls EvOpenFailed r.1 = 1 + dir_entries fs_mixed)%nat).
Proof. apply (readDir_calls fs_mixed (Some []) true). Defined.

(** ** printDir and the slices of its caller *)

Lemma frame_elems_other (s s' : Slice) (h h' : Heap) :
  frame s h h' -> valid_slice h s' ->
  ptr s' <> ptr s \/ (len s' <= len s)%nat ->
  elems h' s' = elems h s'.
Proof.
  intros Hf (a & Hp & Hlen & Hcap) Hs'.
  destruct (Hf _ _ Hp) as (a' & Hp' & Hl & Ha).
  rewrite /elems Hp Hp' /=. apply list_eq. intros j.
  destruct (decide (j < len s')%nat) as [Hj|Hj].
  - rewrite !lookup_take_lt //. apply Ha. destruct Hs'; [by left|right; lia].
  - rewrite !lookup_take_ge //; lia.
Qed.

(** [printDir] changes no element that its caller can read: after the call,
    also after one that a failed write has ended, every slice in another
    array, and every slice of the same array that is no longer than the
    slice of prefixes, has the elements it had. *)
Theorem printDir_keeps_slices (growcap : nat -> nat -> nat) {W : Type}
    `{Writer W} (h : Heap) (out : W) (nodes : list Node) (s s' : Slice) :
  valid_slice h s -> valid_slice h s' ->
  ptr s' <> ptr s \/ (len s' <= len s)%nat ->
  elems (printDir growcap h out nodes s).1.1 s' = elems h s'.
Proof.
  intros Hv Hv' Hs'.
  destruct (printDir_render growcap h out nodes s Hv) as (h' & -> & Hf).
  by apply (frame_elems_other s).
Qed.

Lemma printDir_keeps_slices_witness :
  elems (printDir double_cap [[tab; tab; tab; "x"]; ["y"]]
           {| written := ""; room := 40 |} deep_nodes
           {| ptr := 0; len := 3; cap := 4 |}).1.1
        {| ptr := 0; len := 2; cap := 4 |}
  = elems [[tab; tab; tab; "x"]; ["y"]] {| ptr := 0; len := 2; cap := 4 |}.
Proof.
  apply (printDir_keeps_slices double_cap [[tab; tab; tab; "x"]; ["y"]]
           {| written := ""; room := 40 |} deep_nodes
           {| ptr := 0; len := 3; cap := 4 |}
           {| ptr := 0; len := 2; cap := 4 |}).
  - exists [tab; tab; tab; "x"]. simpl. split_and!; [reflexivity|lia|lia].
  - exists [tab; tab; tab; "x"]. simpl. split_and!; [reflexivity|lia|lia].
  - right. simpl. lia.
Defined.

(** ** The number of writes *)

Lemma render_length_nodes (nodes : list Node) :
  Forall (fun node => forall ps last,
            length (node_writes ps node last) = (2 * tree_size node)%nat) nodes ->
  forall ps, length (render ps nodes) = (2 * forest_size nodes)%nat.
Proof.
  induction 1 as [|node rest Hnode _ IH]; intros ps; [done|].
  rewrite /forest_size fmap_cons list_sum_cons -/(forest_size rest).
  destruct (decide (rest = [])) as [->|Hne].
  - rewrite render_last Hnode /forest_size /=. lia.
  - rewrite render_more // length_app Hnode IH. lia.
Qed.

Lemma node_writes_length (node : Node) :
  forall ps last, length (node_writes ps node last) = (2 * tree_size node)%nat.
Proof.
  induction node as [name children IH|name size] using Node_ind';
    intros ps last; rewrite node_writes_eq; cbn [length children_of tree_size].
  - rewrite render_length_nodes // -/(forest_size children). lia.
  - done.
Qed.

Lemma write_all_Counter (n : Counter) (ws : list string) :
  write_all n ws = ((n + length ws)%nat, None).
Proof.
  revert n; induction ws as [|w ws IH]; intros n.
  - by rewrite /= Nat.add_0_r.
  - cbn [write_all]. rewrite /Fprintf /Write /Counter_Writer.
    cbn [fmap option_fmap option_map]. rewrite IH /=. f_equal. lia.
Qed.

(** On a writer that does not fail [printDir] calls [Write] twice for every
    node of the tree, whatever the prefixes are: once for the prefix and
    once for the line. *)
Theorem printDir_write_count (growcap : nat -> nat -> nat) (h : Heap)
    (n : Counter) (nodes : list Node) (s : Slice) :
  valid_slice h s ->
  (printDir growcap h n nodes s).1.2 = (n + 2 * forest_size nodes)%nat /\
  (printDir growcap h n nodes s).2 = None.
Proof.
  intros Hv.
  destruct (printDir_render growcap h n nodes s Hv) as (h' & -> & _).
  rewrite write_all_Counter /with_heap. cbn [fst snd].
  rewrite render_length_nodes //.
  apply Forall_forall. intros node _. apply node_writes_length.
Qed.

Lemma printDir_write_count_witness :
  (printDir double_cap [[]] (0%nat : Counter) deep_nodes
     {| ptr := 0; len := 0; cap := 0 |}).1.2
  = (0 + 2 * forest_size deep_nodes)%nat /\
  (printDir double_cap [[]] (0%nat : Counter) deep_nodes
     {| ptr := 0; len := 0; cap := 0 |}).2 = None.
Proof.
  apply (printDir_write_count double_cap [[]] (0%nat : Counter) deep_nodes
           {| ptr := 0; len := 0; cap := 0 |}).
  exists []. simpl. split_and!; [reflexivity|lia|lia].
Defined.

(** ** The size can be read back from the label *)

Lemma string_length_app (s1 s2 : string) :
  String.length (s1 +:+ s2) = (String.length s1 + String.length s2)%nat.
Proof.
  induction s1 as [|c s1 IH]; [done|]. by rewrite string_app_cons /= IH.
Qed.

Lemma string_app_inj_r (s1 s2 t : string) :
  s1 +:+ t = s2 +:+ t -> s1 = s2.
Proof.
  revert s2; induction s1 as [|c s1 IH]; intros [|c' s2] Heq.
  - done.
  - apply (f_equal String.length) in Heq.
    rewrite string_app_nil_l string_length_app /= in Heq. lia.
  - apply (f_equal String.length) in Heq.
    rewrite string_app_nil_l string_length_app /= in Heq. lia.
  - rewrite !string_app_cons in Heq. injection Heq as -> Heq.
    by rewrite (IH s2).
Qed.

Lemma parse_int_digits (ds : string) :
  all_digits ds = true -> parse_int ds = decimal_value ds.
Proof.
  destruct ds as [|c ds]; [done|]. cbn [all_digits]. intros Hd.
  apply andb_true_iff in Hd as [Hc _].
  destruct c as [[] [] [] [] [] [] [] []]; done.
Qed.

(** [FormatInt] in base ten and [parse_int] are a round trip on all
    integers, and a numeral starts with a digit or with the sign. *)
Lemma FormatInt_parse_int (n : Z) :
  parse_int (FormatInt n 10) = n /\
  exists c rest, FormatInt n 10 = String c rest /\
                 (c = "-"%char \/ is_digit c = true).
Proof.
  rewrite /FormatInt. destruct (Z.ltb_spec n 0) as [Hneg|Hpos].
  - destruct (formatBits_decimal (bit_length (- n)) (- n) "")
      as (ds & -> & _ & _ & Hval & _).
    { split; [lia|]. apply bit_length_bound. lia. }
    { rewrite /bit_length. lia. }
    rewrite string_app_nil_r. split; [|by eauto].
    cbn [parse_int]. lia.
  - destruct (formatBits_decimal (bit_length n) n "")
      as (ds & -> & Hne & Hall & Hval & _).
    { split; [lia|]. by apply bit_length_bound. }
    { rewrite /bit_length. lia. }
    rewrite string_app_nil_r. split; [by rewrite parse_int_digits|].
    destruct ds as [|c ds]; [done|]. exists c, ds. split; [done|].
    cbn [all_digits] in Hall. apply andb_true_iff in Hall as [Hc _]. by right.
Qed.

Lemma FileInfo_String_size_eq (name : string) (size1 size2 : Z) :
  FileInfo_String name size1 = FileInfo_String name size2 -> size1 = size2.
Proof.
  rewrite !FileInfo_String_eq.
  destruct (FormatInt_parse_int size1) as (Hp1 & c1 & r1 & Hf1 & Hc1).
  destruct (FormatInt_parse_int size2) as (Hp2 & c2 & r2 & Hf2 & Hc2).
  destruct (Z.eqb_spec size1 0) as [->|H1], (Z.eqb_spec size2 0) as [->|H2];
    intros Heq; apply (inj (String.app name)) in Heq.
  - done.
  - exfalso. rewrite Hf2 in Heq. injection Heq as Hc.
    subst c2. by destruct Hc2.
  - exfalso. rewrite Hf1 in Heq. injection Heq as Hc.
    subst c1. by destruct Hc1.
  - change (" (" +:+ ?x) with (String " " (String "(" x)) in Heq.
    injection Heq as Heq. apply string_app_inj_r in Heq. congruence.
Qed.

(** For one name, files of different sizes have different labels, whatever
    the sizes are, zero and negative ones included. *)
Theorem FileInfo_String_size_inj (name : string) (size1 size2 : Z) :
  size1 <> size2 -> FileInfo_String name size1 <> FileInfo_String name size2.
Proof. intros Hne Heq. by apply Hne, (FileInfo_String_size_eq name). Qed.

Lemma FileInfo_String_size_inj_witness :
  FileInfo_String "a.txt" 0 <> FileInfo_String "a.txt" (-7).
Proof. apply (FileInfo_String_size_inj "a.txt" 0 (-7)). lia. Defined.

(** ** Without files, the files play no part *)

Section SortFilter.
Context {A : Type} (key : A -> string) (P : A -> Prop) `{forall x, Decision (P x)}.

Lemma sort_insert_filter_false (x : A) (l : list A) :
  ~ P x -> filter P (sort_insert (less_key key) x l) = filter P l.
Proof.
  intros Hx. induction l as [|y l IH]; simpl.
  - by rewrite filter_cons_False.
  - destruct (less_key key y x).
    + by rewrite !(filter_cons _ y) IH.
    + by rewrite (filter_cons_False _ x).
Qed.

Lemma sort_insert_first (x : A) (l : list A) :
  Forall (fun z => less_key key z x = false) l ->
  sort_insert (less_key key) x l = x :: l.
Proof. destruct 1 as [|z l Hz _]; [done|]. by rewrite /= Hz. Qed.

Lemma sort_insert_filter_true (x : A) (l : list A) :
  P x -> StronglySorted (le_key key) l ->
  filter P (sort_insert (less_key key) x l)
  = sort_insert (less_key key) x (filter P l).
Proof.
  intros Hx. induction 1 as [|y l Hs IH Hy]; simpl.
  - by rewrite filter_cons_True.
  - destruct (less_key key y x) eqn:Hyx.
    + rewrite !(filter_cons _ y) IH. destruct (decide (P y)); [|done].
      by rewrite /= Hyx.
    + rewrite (filter_cons_True _ x) // (filter_cons _ y).
      destruct (decide (P y)); [by rewrite /= Hyx|].
      symmetry. apply sort_insert_first.
      apply Forall_forall. intros z [_ Hz]%list_elem_of_filter.
      rewrite Forall_forall in Hy. apply ltb_false_le.
      transitivity (key y); [by apply ltb_false_le|by apply Hy].
Qed.

Lemma filter_sort_Slice (l : list A) :
  filter P (sort_Slice (less_key key) l)
  = sort_Slice (less_key key) (filter P l).
Proof.
  induction l as [|x l IH]; [done|]. cbn [sort_Slice].
  rewrite (filter_cons _ x). destruct (decide (P x)).
  - rewrite sort_insert_filter_true //; [|by rewrite IH].
    apply Sorted_StronglySorted; [apply _|]. apply sort_Slice_sorted.
  - by rewrite sort_insert_filter_false.
Qed.
End SortFilter.

Lemma filter_bool_cons {A} (f : A -> bool) (x : A) (l : list A) :
  filter (fun i => f i) (x :: l)
  = if f x then x :: filter (fun i => f i) l else filter (fun i => f i) l.
Proof.
  rewrite filter_cons.
  by destruct (decide (f x)) as [Hx|Hx]; destruct (f x).
Qed.

Lemma readDir_loop_dirs (files : list FileStat) (nodes : Nodes_ptr) :
  readDir_loop files nodes false
  = readDir_loop (filter (fun info => IsDir info) files) nodes false.
Proof.
  revert nodes; induction files as [|info rest IH]; intros nodes; [done|].
  rewrite filter_bool_cons. destruct (IsDir info) eqn:Hd.
  - cbn [readDir_loop]. rewrite Hd. cbn [orb negb].
    destruct (readDir (at_path info) (Some []) false)
      as [t [[[c|] err]|msg]]; simpl; try done.
    destruct nodes as [l|]; [|done]. by rewrite IH.
  - by rewrite readDir_loop_skip.
Qed.

Lemma strip_files_listing (files : list FileStat) :
  omap (fun info =>
          if IsDir info then
            Some (MkStat (Name info) (Size info) true
                    (strip_files (at_path info)))
          else None) files
  = (fun info => MkStat (Name info) (Size info) true
                   (strip_files (at_path info)))
      <$> filter (fun info => IsDir info) files.
Proof.
  induction files as [|info rest IH]; [done|].
  rewrite filter_bool_cons. cbn [omap list_omap]. rewrite -/(omap _ rest) IH.
  by destruct (IsDir info).
Qed.

Lemma readDir_strip_files (path : Dir) :
  forall nodes,
    readDir path nodes false = readDir (strip_files path) nodes false.
Proof.
  induction path as [e|files readErr closeErr IH] using Dir_ind';
    intros nodes; [done|].
  cbn [strip_files]. rewrite !readDir_OpenOk strip_files_listing.
  set (g := fun info => MkStat (Name info) (Size info) true
                          (strip_files (at_path info))).
  assert (readDir_loop (sort_Slice less_Name files) nodes false
          = readDir_loop
              (sort_Slice less_Name (g <$> filter (fun info => IsDir info) files))
              nodes false) as ->; [|done].
  rewrite readDir_loop_dirs (filter_sort_Slice Name).
  rewrite (sort_Slice_map g less_Name less_Name) //.
  apply readDir_loop_view. rewrite -list_fmap_compose.
  apply list_fmap_ext. intros i info Hi.
  apply list_elem_of_lookup_2 in Hi.
  rewrite (sort_Slice_perm Name) in Hi.
  apply list_elem_of_filter in Hi as [Hd Hin].
  rewrite Forall_forall in IH.
  rewrite /view /g /= -(IH info Hin). by destruct (IsDir info).
Qed.

(** Without files, the entries that are not directories play no part: on
    the tree from which they are taken away, at every depth, [dirTree] makes
    the same calls, writes the same output and ends the same. *)
Theorem dirTree_ignores_files (growcap : nat -> nat -> nat) {W : Type}
    `{Writer W} (h : Heap) (out : W) (path : Dir) :
  dirTree growcap h out path false
  = dirTree growcap h out (strip_files path) false.
Proof. by rewrite /dirTree readDir_strip_files. Qed.

(** ** One node for every entry *)

Lemma list_sum_fmap_filter_kept (withFiles : bool) (f : FileStat -> nat)
    (l : list FileStat) :
  list_sum (f <$> filter (fun i => kept withFiles i) l)
  = list_sum ((fun i => if kept withFiles i then f i else 0%nat) <$> l).
Proof.
  induction l as [|i l IH]; [done|].
  rewrite filter_bool_cons fmap_cons list_sum_cons.
  destruct (kept withFiles i); [|done]. by rewrite fmap_cons list_sum_cons IH.
Qed.

(** A scan that returns has built one node for every entry it was to keep,
    at every depth: none is lost and none is there twice. *)
Theorem readDir_tree_size (path : Dir) (withFiles : bool) :
  forall (init nodes : list Node) (t : list Event) (err : option error),
    readDir path (Some init) withFiles = (t, Return (Some nodes, err)) ->
    forest_size nodes = (forest_size init + kept_entries withFiles path)%nat.
Proof.
  induction path as [e|files readErr closeErr IH] using Dir_ind';
    intros init nodes t err Hrun.
  { by injection Hrun. }
  destruct (readDir_returns _ _ _ _ _ _ Hrun)
    as [(? & ? & _)|(? & ? & ? & built & [= <- <- <-] & [= ->] & _ & Hbuilt)];
    [done|].
  rewrite /forest_size fmap_app list_sum_app. f_equal.
  cbn [kept_entries].
  rewrite -(list_sum_fmap_perm _ _ files (sort_Slice_perm Name files)).
  change (sort_Slice (less_key Name) files) with (sort_Slice less_Name files).
  set (f := fun info =>
              if IsDir info then S (kept_entries withFiles (at_path info))
              else if withFiles then 1%nat else 0%nat).
  assert (list_sum (f <$> sort_Slice less_Name files)
          = list_sum (f <$> filter (fun i => kept withFiles i)
                              (sort_Slice less_Name files))) as ->.
  { rewrite list_sum_fmap_filter_kept. f_equal. apply list_fmap_ext.
    intros _ info _. rewrite /kept /f.
    by destruct (IsDir info), withFiles. }
  remember (filter (fun i => kept withFiles i) (sort_Slice less_Name files))
    as keptl eqn:Hkept.
  assert (Forall (fun info => info ∈ files) keptl) as Hin.
  { subst keptl. apply Forall_forall. intros info [_ Hi]%list_elem_of_filter.
    by rewrite -(sort_Slice_perm Name files). }
  assert (Forall (fun info => kept withFiles info = true) keptl) as Hk.
  { subst keptl. apply Forall_forall. intros info [Hi _]%list_elem_of_filter.
    by destruct (kept withFiles info). }
  clear Hkept Hrun. rewrite Forall_forall in IH.
  induction Hbuilt as [|info node l built' Hnode _ IHb]; [done|].
  apply Forall_cons in Hin as [Hi Hin]. apply Forall_cons in Hk as [Hki Hk].
  rewrite !fmap_cons !list_sum_cons (IHb Hin Hk). f_equal.
  destruct node as [name children|name size]; simpl in Hnode.
  - destruct Hnode as (Hd & _ & t' & err' & Hsub).
    rewrite /f Hd. cbn [tree_size]. f_equal.
    by rewrite -/(forest_size children) (IH info Hi [] children t' err' Hsub).
  - destruct Hnode as (Hd & _). rewrite /f Hd. rewrite /kept Hd /= in Hki.
    by rewrite Hki.
Qed.

Lemma readDir_tree_size_witness :
  forest_size example_nodes = (forest_size [] + kept_entries true fs_example)%nat.
Proof.
  apply (readDir_tree_size fs_example true [] example_nodes
           [EvOpen; EvReaddir; EvOpen; EvReaddir; EvClose; EvClose] None).
  reflexivity.
Defined.
